(** * linux-ls-parser: a shallow embedding of [src/lib.rs]

    Parser of the output of [ls -lpa].  A Rust [&str] is valid UTF-8, i.e. a
    sequence of Unicode scalar values; it is modelled as [list N] (one [N]
    per [char]).  Byte-level operations of the source ([str::len],
    [as_bytes()[0]], [as_bytes()[len-1]], slicing [1..len-1]) are written
    over this representation with [utf8_len] and first/last characters: the
    first byte of a UTF-8 sequence is ASCII iff its character is, and the
    last byte of a multi-byte sequence is a continuation byte (never ASCII),
    so comparing these bytes with an ASCII quote is comparing the first/last
    character with it.  [String] ordering (byte-lexicographic on UTF-8) is
    code-point lexicographic order. *)

From Stdlib Require Import List NArith ZArith Bool Sorted Permutation Lia RelationClasses.
From Stdlib Require Import String Ascii.
Import ListNotations.

Abbreviation char := N (only parsing).
Abbreviation str := (list N) (only parsing).

(** ASCII string literal as a list of code points (used for concrete inputs). *)
Fixpoint s2l (s : string) : str :=
  match s with
  | EmptyString => []
  | String a s' => N_of_ascii a :: s2l s'
  end.

(** ** Rust's [Result] and a small error monad *)

Inductive result (A E : Type) : Type :=
| Ok : A -> result A E
| Err : E -> result A E.
Arguments Ok {A E} _.
Arguments Err {A E} _.

Definition bind {A B E} (m : result A E) (f : A -> result B E) : result B E :=
  match m with
  | Ok a => f a
  | Err e => Err e
  end.

Notation "'let*' x ':=' m 'in' f" := (bind m (fun x => f))
  (at level 200, x name, m at level 100, f at level 200).
Notation "'let*' ' p ':=' m 'in' f" := (bind m (fun x => match x with p => f end))
  (at level 200, p pattern, m at level 100, f at level 200).

(** [opt.ok_or(e)] *)
Definition ok_or {A E} (o : option A) (e : E) : result A E :=
  match o with
  | Some a => Ok a
  | None => Err e
  end.

(** ** Standard library string primitives *)

(** [char::is_whitespace]: the Unicode [White_Space] property. *)
Definition is_whitespace (c : char) : bool :=
  ((9 <=? c) && (c <=? 13))%N || (c =? 32)%N || (c =? 0x85)%N || (c =? 0xA0)%N
  || (c =? 0x1680)%N || ((0x2000 <=? c) && (c <=? 0x200A))%N
  || (c =? 0x2028)%N || (c =? 0x2029)%N || (c =? 0x202F)%N
  || (c =? 0x205F)%N || (c =? 0x3000)%N.

(** Number of bytes of the UTF-8 encoding of a scalar value. *)
Definition utf8_width (c : char) : nat :=
  if (c <? 0x80)%N then 1
  else if (c <? 0x800)%N then 2
  else if (c <? 0x10000)%N then 3
  else 4.

(** [str::len]: length in bytes. *)
Fixpoint utf8_len (s : str) : nat :=
  match s with
  | [] => 0
  | c :: s' => utf8_width c + utf8_len s'
  end.

Definition is_empty (s : str) : bool :=
  match s with [] => true | _ => false end.

Fixpoint str_eqb (a b : str) : bool :=
  match a, b with
  | [], [] => true
  | x :: a', y :: b' => (x =? y)%N && str_eqb a' b'
  | _, _ => false
  end.

(** [s.strip_prefix(p)] *)
Fixpoint strip_prefix (p s : str) : option str :=
  match p, s with
  | [], _ => Some s
  | x :: p', y :: s' => if (x =? y)%N then strip_prefix p' s' else None
  | _ :: _, [] => None
  end.

(** [s.starts_with(p)] *)
Definition starts_with (s p : str) : bool :=
  match strip_prefix p s with Some _ => true | None => false end.

Fixpoint drop_while (f : char -> bool) (s : str) : str :=
  match s with
  | [] => []
  | c :: s' => if f c then drop_while f s' else s
  end.

(** [str::trim]: removes leading and trailing whitespace. *)
Definition trim (s : str) : str :=
  rev (drop_while is_whitespace (rev (drop_while is_whitespace s))).

(** [str::split(char::is_whitespace)]: [cur] is the current piece, reversed. *)
Fixpoint split_ws_aux (s : str) (cur : str) : list str :=
  match s with
  | [] => [rev cur]
  | c :: s' =>
      if is_whitespace c then rev cur :: split_ws_aux s' []
      else split_ws_aux s' (c :: cur)
  end.

(** [str::split_whitespace] = [split(char::is_whitespace).filter(|s| !s.is_empty())]. *)
Definition split_whitespace (s : str) : list str :=
  filter (fun w => negb (is_empty w)) (split_ws_aux s []).

(** The line terminator stripping of [str::lines]: a line that ended in
    ['\n'] loses it and then one trailing ['\r'] if present. *)
Definition strip_cr (line : str) : str :=
  match rev line with
  | 13%N :: l => rev l
  | _ => line
  end.

(** [str::lines] = [split_inclusive('\n')] followed by the terminator
    stripping; [cur] is the current line, reversed.  A final line without
    ['\n'] is kept as is; no empty line follows a final ['\n']. *)
Fixpoint lines_aux (s : str) (cur : str) : list str :=
  match s with
  | [] => match cur with [] => [] | _ => [rev cur] end
  | c :: s' =>
      if (c =? 10)%N then strip_cr (rev cur) :: lines_aux s' []
      else lines_aux s' (c :: cur)
  end.

Definition lines (s : str) : list str := lines_aux s [].

(** [parts.join(" ")] *)
Fixpoint join (sep : str) (parts : list str) : str :=
  match parts with
  | [] => []
  | [w] => w
  | w :: ws => w ++ sep ++ join sep ws
  end.

(** [s.ends_with(c)] *)
Definition ends_with (s : str) (c : char) : bool :=
  match rev s with
  | d :: _ => (d =? c)%N
  | [] => false
  end.

(** [while s.ends_with(c) { s.pop(); }] *)
Definition pop_while_ends_with (s : str) (c : char) : str :=
  rev (drop_while (fun d => (d =? c)%N) (rev s)).

(** [<i64 as FromStr>::from_str]: an optional ['+'] or ['-'] sign followed by
    at least one ASCII digit, accumulated with checked arithmetic; a lone
    sign, an empty string, any other character or an overflow is an error. *)
Definition i64_min : Z := - 2 ^ 63.
Definition i64_max : Z := 2 ^ 63 - 1.

Definition to_digit (c : char) : option Z :=
  if ((48 <=? c) && (c <=? 57))%N then Some (Z.of_N c - 48)%Z else None.

Fixpoint accumulate_pos (acc : Z) (digits : str) : option Z :=
  match digits with
  | [] => Some acc
  | c :: ds =>
      match to_digit c with
      | None => None
      | Some d =>
          let acc' := (acc * 10 + d)%Z in
          if (i64_max <? acc')%Z then None else accumulate_pos acc' ds
      end
  end.

Fixpoint accumulate_neg (acc : Z) (digits : str) : option Z :=
  match digits with
  | [] => Some acc
  | c :: ds =>
      match to_digit c with
      | None => None
      | Some d =>
          let acc' := (acc * 10 - d)%Z in
          if (acc' <? i64_min)%Z then None else accumulate_neg acc' ds
      end
  end.

Definition parse_i64 (src : str) : option Z :=
  match src with
  | [] => None
  | [43%N] | [45%N] => None
  | 43%N :: digits => accumulate_pos 0 digits
  | 45%N :: digits => accumulate_neg 0 digits
  | digits => accumulate_pos 0 digits
  end.

(** ** Data model (lib.rs) *)

Inductive ErrorKind : Type :=
| MissingFileMode
| MissingLinkCount
| MissingOwner
| MissingGroup
| MissingSize
| InvalidSize (token : str)
| MissingMonth
| MissingDay
| MissingTimestamp
| MissingName
| EmptyQuotedName
| InvalidEscapeSequence.

Record Error : Type := mkError { kind : ErrorKind; line : str }.

Record LsOutputFile : Type := mkFile { name : str; size_bytes : Z }.

Record LsOutput : Type := mkLsOutput { files : list LsOutputFile; folders : list str }.

Inductive ParsedLine : Type :=
| File (f : LsOutputFile)
| Folder (d : str).

Definition backslash : char := 92.
Definition dquote : char := 34.
Definition squote : char := 39.
Definition slash : char := 47.
Definition space : char := 32.

(** ** [unescape_double_quoted] *)

(** The body of the [while let Some(ch) = chars.next()] loop; [result] is the
    [String] being pushed to. *)
Fixpoint unescape_loop (chars : str) (result_ : str) : result str ErrorKind :=
  match chars with
  | [] => Ok result_
  | ch :: chars' =>
      if (ch =? backslash)%N then
        match chars' with
        | [] => Err InvalidEscapeSequence
        | escaped :: chars'' =>
            unescape_loop chars''
              (result_ ++ [if (escaped =? 110)%N then 10%N
                           else if (escaped =? 114)%N then 13%N
                           else if (escaped =? 116)%N then 9%N
                           else escaped])
        end
      else unescape_loop chars' (result_ ++ [ch])
  end.

Definition unescape_double_quoted (input : str) : result str ErrorKind :=
  unescape_loop input [].

(** ** [parse_name] *)

Definition first_char (s : str) : option char :=
  match s with c :: _ => Some c | [] => None end.

Definition last_char (s : str) : option char := first_char (rev s).

Definition is_char (o : option char) (c : char) : bool :=
  match o with Some d => (d =? c)%N | None => false end.

(** [&raw[1..raw.len() - 1]] when the first and last bytes are ASCII. *)
Definition inner (s : str) : str := removelast (tl s).

Definition parse_name (raw : str) : result str ErrorKind :=
  if is_empty raw then Err MissingName
  else if (2 <=? utf8_len raw)%nat then
    if is_char (first_char raw) dquote && is_char (last_char raw) dquote then
      let* value := unescape_double_quoted (inner raw) in
      if is_empty value then Err EmptyQuotedName else Ok value
    else if is_char (first_char raw) squote && is_char (last_char raw) squote then
      let value := inner raw in
      if is_empty value then Err EmptyQuotedName else Ok value
    else Ok raw
  else Ok raw.

(** ** [parse_line] *)

(** [parts.next()] on the [split_whitespace] iterator, the iterator being
    the list of the remaining tokens. *)
Definition next (parts : list str) : option (str * list str) :=
  match parts with
  | w :: ws => Some (w, ws)
  | [] => None
  end.

Definition total_prefix : str := s2l "total ".
Definition dot : str := [46%N].
Definition dotdot : str := [46%N; 46%N].

(** [file_mode.len() == 10] and [file_mode.as_bytes()[0]] is [l], [b] or [c]. *)
Definition skip_mode (file_mode : str) : bool :=
  (utf8_len file_mode =? 10)%nat &&
  (is_char (first_char file_mode) 108 || is_char (first_char file_mode) 98
   || is_char (first_char file_mode) 99).

Definition parse_line (line : str) : result (option ParsedLine) ErrorKind :=
  if is_empty line || starts_with line total_prefix then Ok None else
  let parts := split_whitespace line in
  let* '(file_mode, parts) := ok_or (next parts) MissingFileMode in
  if skip_mode file_mode then Ok None else
  let* '(_, parts) := ok_or (next parts) MissingLinkCount in
  let* '(_, parts) := ok_or (next parts) MissingOwner in
  let* '(_, parts) := ok_or (next parts) MissingGroup in
  let* '(size_token, parts) := ok_or (next parts) MissingSize in
  let* size := ok_or (parse_i64 size_token) (InvalidSize size_token) in
  let* '(_, parts) := ok_or (next parts) MissingMonth in
  let* '(_, parts) := ok_or (next parts) MissingDay in
  let* '(_, parts) := ok_or (next parts) MissingTimestamp in
  let raw_name := join [space] parts in
  if is_empty raw_name then Err MissingName else
  let is_directory := ends_with raw_name slash in
  let raw_name := if is_directory then pop_while_ends_with raw_name slash else raw_name in
  let* name_ := parse_name raw_name in
  if str_eqb name_ dot || str_eqb name_ dotdot then Ok None else
  if is_directory then
    if is_empty name_ then Ok None else Ok (Some (Folder name_))
  else Ok (Some (File (mkFile name_ size))).

(** ** Sorting: [files.sort_by(|a, b| a.name.cmp(&b.name))] and [folders.sort()]

    Both are stable sorts; a stable sort of a list is unique, so the stable
    insertion sort below computes the same list as the library's merge sort. *)

Fixpoint str_cmp (a b : str) : comparison :=
  match a, b with
  | [], [] => Eq
  | [], _ :: _ => Lt
  | _ :: _, [] => Gt
  | x :: a', y :: b' =>
      match N.compare x y with
      | Eq => str_cmp a' b'
      | c => c
      end
  end.

Definition str_le (a b : str) : Prop := str_cmp a b <> Gt.

Section StableSort.
Context {A : Type} (cmp : A -> A -> comparison).

Fixpoint insert_by (x : A) (l : list A) : list A :=
  match l with
  | [] => [x]
  | y :: l' =>
      match cmp x y with
      | Gt => y :: insert_by x l'
      | _ => x :: l
      end
  end.

Fixpoint sort_by (l : list A) : list A :=
  match l with
  | [] => []
  | x :: l' => insert_by x (sort_by l')
  end.
End StableSort.

Definition file_cmp (a b : LsOutputFile) : comparison := str_cmp (name a) (name b).

(** ** [LsOutput::from_str] *)

Definition strip_continuation (s : str) : str :=
  match strip_prefix [backslash; 13%N; 10%N] s with
  | Some r => r
  | None =>
      match strip_prefix [backslash; 10%N] s with
      | Some r => r
      | None => s
      end
  end.

(** The [for raw_line in input.lines()] loop with its two accumulators. *)
Fixpoint parse_lines (ls : list str) (files_ : list LsOutputFile) (folders_ : list str)
  : result (list LsOutputFile * list str) Error :=
  match ls with
  | [] => Ok (files_, folders_)
  | raw_line :: ls' =>
      let line_ := trim raw_line in
      match parse_line line_ with
      | Err k => Err (mkError k line_)
      | Ok None => parse_lines ls' files_ folders_
      | Ok (Some (File f)) => parse_lines ls' (files_ ++ [f]) folders_
      | Ok (Some (Folder d)) => parse_lines ls' files_ (folders_ ++ [d])
      end
  end.

(** The loop followed by the two sorts. *)
Definition from_lines (ls : list str) : result LsOutput Error :=
  let* '(files_, folders_) := parse_lines ls [] [] in
  Ok (mkLsOutput (sort_by file_cmp files_) (sort_by str_cmp folders_)).

Definition from_str (s : str) : result LsOutput Error :=
  from_lines (lines (strip_continuation s)).

(** ** The repository's unit tests, evaluated on the model *)

Definition nl : string := String (ascii_of_nat 10) EmptyString.

Example test_folders :
  from_str (s2l ("total 16" ++ nl ++
    "drwxr-xr-x  5 user user  4096 Jan  1 12:00 ./" ++ nl ++
    "drwxr-xr-x  2 user user  4096 Jan  1 12:01 ../" ++ nl ++
    "drwxr-xr-x  4 user user  4096 Jan  1 12:02 zeta/" ++ nl ++
    "drwxr-xr-x  4 user user  4096 Jan  1 12:02 alpha/" ++ nl))
  = Ok (mkLsOutput [] [s2l "alpha"; s2l "zeta"]).
Proof. vm_compute. reflexivity. Qed.

Example test_files :
  from_str (s2l ("total 12" ++ nl ++
    "drwxr-xr-x  5 root root 4096 Jan  1 00:00 ./" ++ nl ++
    "drwxr-xr-x  5 root root 4096 Jan  1 00:00 ../" ++ nl ++
    "-rw-r--r--  1 root root   16 Jan  1 00:01 arrow -> name" ++ nl ++
    "-rw-r--r--  1 root root   16 Jan  1 00:01 notes.txt" ++ nl ++
    "-rw-r--r--  1 root root    8 Jan  1 00:02 .hidden" ++ nl))
  = Ok (mkLsOutput [mkFile (s2l ".hidden") 8; mkFile (s2l "arrow -> name") 16;
                    mkFile (s2l "notes.txt") 16] []).
Proof. vm_compute. reflexivity. Qed.

Example test_ignores_device_files :
  from_str (s2l ("brw-rw----  1 root disk 8, 0 Jan  1 12:00 sda" ++ nl ++
                 "crw-rw----  1 root disk 8, 1 Jan  1 12:00 sda1" ++ nl))
  = Ok (mkLsOutput [] []).
Proof. vm_compute. reflexivity. Qed.

Example test_spaces :
  from_str (s2l ("\" ++ nl ++
    "drwxrwxr-x 2 imbolc imbolc 4096 Oct 14 10:49 ") ++
    [dquote] ++ s2l "let's play" ++ [dquote] ++ s2l ("/" ++ nl ++
    "-rw-rw-r-- 1 imbolc imbolc    0 Oct 14 10:50 'a b'" ++ nl))
  = Ok (mkLsOutput [mkFile (s2l "a b") 0] [s2l "let's play"]).
Proof. vm_compute. reflexivity. Qed.

Example test_double_quoted_escapes :
  parse_name ([dquote] ++ s2l "a\nb\tc\rd\\e\q" ++ [dquote])
  = Ok ([97; 10; 98; 9; 99; 13; 100; 92; 101; 113]%N).
Proof. vm_compute. reflexivity. Qed.

(** * Properties *)

(** ** General lemmas on the primitives *)

Lemma str_eqb_eq (a b : str) : str_eqb a b = true <-> a = b.
Proof.
  revert b; induction a as [|x a IH]; intros [|y b]; simpl; try (split; congruence).
  rewrite andb_true_iff, N.eqb_eq, IH. split; [intros [-> ->]; reflexivity|].
  intros H; injection H; auto.
Qed.

Lemma str_eqb_false (a b : str) : str_eqb a b = false -> a <> b.
Proof. intros H E. apply str_eqb_eq in E. congruence. Qed.

Lemma str_cmp_antisym (a b : str) : str_cmp b a = CompOpp (str_cmp a b).
Proof.
  revert b; induction a as [|x a IH]; intros [|y b]; simpl; try reflexivity.
  rewrite (N.compare_antisym x y).
  destruct (N.compare x y); simpl; auto.
Qed.

Lemma str_cmp_refl (a : str) : str_cmp a a = Eq.
Proof. induction a as [|x a IH]; simpl; [reflexivity|]. now rewrite N.compare_refl. Qed.

(** ** The success cases of [parse_line] *)

Lemma parse_line_some (line_ : str) (e : ParsedLine) :
  parse_line line_ = Ok (Some e) ->
  exists m c1 c2 c3 sz c5 c6 c7 parts size n,
    is_empty line_ = false /\ starts_with line_ total_prefix = false /\
    split_whitespace line_ = m :: c1 :: c2 :: c3 :: sz :: c5 :: c6 :: c7 :: parts /\
    skip_mode m = false /\ parse_i64 sz = Some size /\
    join [space] parts <> [] /\ n <> dot /\ n <> dotdot /\
    (ends_with (join [space] parts) slash = true /\
       parse_name (pop_while_ends_with (join [space] parts) slash) = Ok n /\
       n <> [] /\ e = Folder n
     \/ ends_with (join [space] parts) slash = false /\
       parse_name (join [space] parts) = Ok n /\ e = File (mkFile n size)).
Proof.
  unfold parse_line.
  destruct (is_empty line_) eqn:E0; [discriminate|].
  destruct (starts_with line_ total_prefix) eqn:E1; [discriminate|]. simpl.
  destruct (split_whitespace line_) as [|m [|c1 [|c2 [|c3 [|sz [|c5 [|c6 [|c7 parts]]]]]]]];
    simpl; try discriminate;
    destruct (skip_mode m) eqn:Em; try discriminate;
    destruct (parse_i64 sz) as [size|] eqn:Esz; simpl; try discriminate.
  destruct (join [space] parts) as [|r0 rs] eqn:Ej; simpl; [discriminate|].
  set (raw := r0 :: rs) in *.
  destruct (ends_with raw slash) eqn:Ed.
  - destruct (parse_name (pop_while_ends_with raw slash)) as [n|k] eqn:En; simpl; [|discriminate].
    destruct (str_eqb n dot) eqn:Ed1; simpl; [discriminate|].
    destruct (str_eqb n dotdot) eqn:Ed2; simpl; [discriminate|].
    destruct n as [|c n'] eqn:Hn; simpl; [discriminate|].
    intros H; injection H as <-.
    exists m, c1, c2, c3, sz, c5, c6, c7, parts, size, (c :: n').
    rewrite Ej. repeat split; auto using str_eqb_false; try discriminate.
    left. repeat split; auto. discriminate.
  - destruct (parse_name raw) as [n|k] eqn:En; simpl; [|discriminate].
    destruct (str_eqb n dot) eqn:Ed1; simpl; [discriminate|].
    destruct (str_eqb n dotdot) eqn:Ed2; simpl; [discriminate|].
    intros H; injection H as <-.
    exists m, c1, c2, c3, sz, c5, c6, c7, parts, size, n.
    rewrite Ej. repeat split; auto using str_eqb_false; discriminate.
Qed.

(** ** The stable insertion sort sorts and permutes *)

Section SortProps.
Context {A : Type} (cmp : A -> A -> comparison).
Hypothesis cmp_flip : forall a b, cmp a b = Gt -> cmp b a <> Gt.

Let le_ (a b : A) : Prop := cmp a b <> Gt.

Lemma insert_by_perm (x : A) (l : list A) : Permutation (insert_by cmp x l) (x :: l).
Proof.
  induction l as [|y l IH]; simpl; [reflexivity|].
  destruct (cmp x y); try reflexivity.
  rewrite IH. apply perm_swap.
Qed.

Lemma sort_by_perm (l : list A) : Permutation (sort_by cmp l) l.
Proof.
  induction l as [|x l IH]; simpl; [reflexivity|].
  rewrite insert_by_perm. now apply perm_skip.
Qed.

Lemma insert_by_sorted (x : A) (l : list A) :
  Sorted le_ l -> Sorted le_ (insert_by cmp x l).
Proof.
  induction 1 as [|y l Hl IH Hhd]; simpl.
  - constructor; constructor.
  - destruct (cmp x y) eqn:Exy.
    + constructor; [constructor; auto|]. constructor. unfold le_; congruence.
    + constructor; [constructor; auto|]. constructor. unfold le_; congruence.
    + constructor; [exact IH|].
      destruct l as [|z l']; simpl.
      * constructor. now apply cmp_flip.
      * inversion Hhd; subst.
        destruct (cmp x z) eqn:Exz; constructor; auto;
          try (now apply cmp_flip); unfold le_; congruence.
Qed.

Lemma sort_by_sorted (l : list A) : Sorted le_ (sort_by cmp l).
Proof. induction l; simpl; [constructor|]. now apply insert_by_sorted. Qed.
End SortProps.

Lemma str_cmp_flip (a b : str) : str_cmp a b = Gt -> str_cmp b a <> Gt.
Proof. intros H. rewrite str_cmp_antisym, H. discriminate. Qed.

Lemma file_cmp_flip (a b : LsOutputFile) : file_cmp a b = Gt -> file_cmp b a <> Gt.
Proof. unfold file_cmp. apply str_cmp_flip. Qed.

(** ** The loop of [from_str] *)

(** Every accumulated entry satisfies what every produced entry satisfies. *)
Lemma parse_lines_preserves (P : ParsedLine -> Prop) (ls : list str) fs ds fs' ds' :
  (forall l e, parse_line l = Ok (Some e) -> P e) ->
  (forall f, In f fs -> P (File f)) -> (forall d, In d ds -> P (Folder d)) ->
  parse_lines ls fs ds = Ok (fs', ds') ->
  (forall f, In f fs' -> P (File f)) /\ (forall d, In d ds' -> P (Folder d)).
Proof.
  intros HP; revert fs ds; induction ls as [|l ls IH]; intros fs ds Hf Hd; simpl.
  - intros H; injection H as <- <-; auto.
  - destruct (parse_line (trim l)) as [[[f|d]|]|k] eqn:E; try discriminate.
    + apply IH; auto. intros f' Hin. apply in_app_or in Hin as [Hin|[<-|[]]]; eauto.
    + apply IH; auto. intros d' Hin. apply in_app_or in Hin as [Hin|[<-|[]]]; eauto.
    + apply IH; auto.
Qed.

(** The first line whose classification fails decides the error. *)
Lemma parse_lines_first_error (pre post : list str) (l : str) (k : ErrorKind) fs ds :
  Forall (fun l' => exists r, parse_line (trim l') = Ok r) pre ->
  parse_line (trim l) = Err k ->
  parse_lines (pre ++ l :: post) fs ds = Err (mkError k (trim l)).
Proof.
  intros Hpre Hl; revert fs ds; induction Hpre as [|l' pre [r Hr] Hpre IH]; intros fs ds; simpl.
  - now rewrite Hl.
  - rewrite Hr. destruct r as [[f|d]|]; apply IH.
Qed.

Lemma from_str_first_error (s : str) (pre post : list str) (l : str) (k : ErrorKind) :
  lines (strip_continuation s) = pre ++ l :: post ->
  Forall (fun l' => exists r, parse_line (trim l') = Ok r) pre ->
  parse_line (trim l) = Err k ->
  from_str s = Err (mkError k (trim l)).
Proof.
  intros Hs Hpre Hl. unfold from_str, from_lines. rewrite Hs.
  now rewrite (parse_lines_first_error pre post l k [] [] Hpre Hl).
Qed.

(** ** C1 *)

Definition not_dot_entry (e : ParsedLine) : Prop :=
  match e with
  | File f => name f <> dot /\ name f <> dotdot
  | Folder d => d <> dot /\ d <> dotdot
  end.

Lemma parse_line_not_dot (l : str) (e : ParsedLine) :
  parse_line l = Ok (Some e) -> not_dot_entry e.
Proof.
  intros H. apply parse_line_some in H.
  destruct H as (m & c1 & c2 & c3 & sz & c5 & c6 & c7 & parts & size & n &
                 _ & _ & _ & _ & _ & _ & Hd1 & Hd2 & [(_ & _ & _ & ->)|(_ & _ & ->)]);
    simpl; auto.
Qed.

(** C1: on success, [files] is sorted ascending by name, [folders] is sorted
    ascending, and no entry of either is named ["."] or [".."] (whatever its
    quoting in the input). *)
Theorem from_str_sorted_without_dots (s : str) (out : LsOutput) :
  from_str s = Ok out ->
  Sorted (fun a b => str_le (name a) (name b)) (files out) /\
  Sorted str_le (folders out) /\
  (forall f, In f (files out) -> name f <> dot /\ name f <> dotdot) /\
  (forall d, In d (folders out) -> d <> dot /\ d <> dotdot).
Proof.
  unfold from_str, from_lines.
  destruct (parse_lines (lines (strip_continuation s)) [] []) as [[fs ds]|err] eqn:E;
    simpl; [|discriminate].
  intros H; injection H as <-; simpl.
  destruct (parse_lines_preserves not_dot_entry _ [] [] fs ds parse_line_not_dot
              (fun f H => match H with end) (fun d H => match H with end) E) as [Hf Hd].
  split; [exact (sort_by_sorted file_cmp file_cmp_flip fs)|].
  split; [exact (sort_by_sorted str_cmp str_cmp_flip ds)|].
  split.
  - intros f Hin. apply (Permutation_in _ (sort_by_perm file_cmp fs)) in Hin. exact (Hf f Hin).
  - intros d Hin. apply (Permutation_in _ (sort_by_perm str_cmp ds)) in Hin. exact (Hd d Hin).
Qed.

(** ** C2 *)

(** C2: when the lines (after the continuation marker is stripped) are
    [pre ++ l :: post], every line of [pre] classifies without error and [l]
    does not, parsing fails with the kind of [l]'s error and the trimmed text
    of [l]; the single line ["broken line"] fails with [line = "broken line"]. *)
Theorem from_str_fails_on_first_malformed_line :
  (forall (s : str) (pre post : list str) (l : str) (k : ErrorKind),
     lines (strip_continuation s) = pre ++ l :: post ->
     Forall (fun l' => exists r, parse_line (trim l') = Ok r) pre ->
     parse_line (trim l) = Err k ->
     from_str s = Err (mkError k (trim l))) /\
  from_str (s2l "broken line") = Err (mkError MissingOwner (s2l "broken line")).
Proof.
  split; [exact from_str_first_error|].
  vm_compute. reflexivity.
Qed.

Definition c2_input : str := s2l ("total 1" ++ nl ++ "-rw-r--r-- 1 u u 3 Jan 1 00:00 ok" ++ nl ++
                                  "broken line" ++ nl ++ "also broken").

Lemma from_str_fails_on_first_malformed_line_witness :
  lines (strip_continuation c2_input) =
    [s2l "total 1"; s2l "-rw-r--r-- 1 u u 3 Jan 1 00:00 ok"] ++ s2l "broken line" :: [s2l "also broken"] /\
  from_str c2_input = Err (mkError MissingOwner (trim (s2l "broken line"))).
Proof.
  split; [vm_compute; reflexivity|].
  apply (proj1 from_str_fails_on_first_malformed_line) with
    (pre := [s2l "total 1"; s2l "-rw-r--r-- 1 u u 3 Jan 1 00:00 ok"]) (post := [s2l "also broken"]).
  - vm_compute. reflexivity.
  - repeat constructor; eexists; vm_compute; reflexivity.
  - vm_compute. reflexivity.
Defined.

Definition c1_input : str := s2l ("total 16" ++ nl ++
  "drwxr-xr-x 5 u u 4096 Jan 1 12:00 zeta/" ++ nl ++
  "drwxr-xr-x 5 u u 4096 Jan 1 12:00 '..'/" ++ nl ++
  "drwxr-xr-x 5 u u 4096 Jan 1 12:00 alpha/" ++ nl ++
  "-rw-r--r-- 1 u u 7 Jan 1 12:00 b" ++ nl ++
  "-rw-r--r-- 1 u u 9 Jan 1 12:00 a" ++ nl).

Lemma from_str_sorted_without_dots_witness :
  from_str c1_input =
    Ok (mkLsOutput [mkFile (s2l "a") 9; mkFile (s2l "b") 7] [s2l "alpha"; s2l "zeta"]) /\
  Sorted (fun a b => str_le (name a) (name b)) [mkFile (s2l "a") 9; mkFile (s2l "b") 7].
Proof.
  split; [vm_compute; reflexivity|].
  apply (from_str_sorted_without_dots c1_input
           (mkLsOutput [mkFile (s2l "a") 9; mkFile (s2l "b") 7] [s2l "alpha"; s2l "zeta"])).
  vm_compute. reflexivity.
Defined.

(** ** C3 *)

(** C3 (as corrected): a line whose first token is exactly 10 bytes long in
    UTF-8 and starts with [l], [b] or [c] is skipped, whatever follows the
    token (missing columns, a device size such as ["8,"]). *)
Theorem parse_line_skips_link_and_device_modes (line_ m : str) (rest : list str) :
  split_whitespace line_ = m :: rest ->
  utf8_len m = 10%nat ->
  first_char m = Some 108%N \/ first_char m = Some 98%N \/ first_char m = Some 99%N ->
  parse_line line_ = Ok None.
Proof.
  intros Hs Hlen Hc. unfold parse_line.
  destruct (is_empty line_ || starts_with line_ total_prefix); [reflexivity|].
  rewrite Hs. simpl.
  assert (Hm : skip_mode m = true).
  { unfold skip_mode. rewrite Hlen. simpl.
    destruct Hc as [-> | [-> | ->]]; reflexivity. }
  now rewrite Hm.
Qed.

Definition c3_device_line : str :=
  s2l "brw-rw---- 1 root disk 8, 0 Jan 1 12:00 sda".

Lemma parse_line_skips_link_and_device_modes_witness :
  split_whitespace c3_device_line =
    s2l "brw-rw----" :: map s2l ["1"; "root"; "disk"; "8,"; "0"; "Jan"; "1"; "12:00"; "sda"]%string /\
  parse_line c3_device_line = Ok None.
Proof.
  split; [vm_compute; reflexivity|].
  apply (parse_line_skips_link_and_device_modes c3_device_line (s2l "brw-rw----")
           (map s2l ["1"; "root"; "disk"; "8,"; "0"; "Jan"; "1"; "12:00"; "sda"]%string)).
  - vm_compute. reflexivity.
  - vm_compute. reflexivity.
  - right. left. reflexivity.
Defined.

(** A mode token of 10 characters, one of them non-ASCII ([é], U+00E9), is
    11 bytes long: the line is not skipped and its device size fails. *)
Definition c3_wide_mode : str := s2l "lrwxrwxrw" ++ [233%N].
Definition c3_wide_line : str := c3_wide_mode ++ s2l " 1 root disk 8, 0 Jan 1 12:00 sda".

Lemma skip_mode_counts_bytes_not_characters :
  split_whitespace c3_wide_line =
    c3_wide_mode :: map s2l ["1"; "root"; "disk"; "8,"; "0"; "Jan"; "1"; "12:00"; "sda"]%string /\
  List.length c3_wide_mode = 10%nat /\ first_char c3_wide_mode = Some 108%N /\
  parse_line c3_wide_line = Err (InvalidSize (s2l "8,")) /\
  from_str c3_wide_line = Err (mkError (InvalidSize (s2l "8,")) c3_wide_line).
Proof. vm_compute. repeat split. Qed.

(** ** C4 *)

Lemma accumulate_pos_range (acc z : Z) (ds : str) :
  (0 <= acc <= i64_max)%Z -> accumulate_pos acc ds = Some z -> (0 <= z <= i64_max)%Z.
Proof.
  revert acc; induction ds as [|c ds IH]; intros acc Hacc; simpl.
  - intros H; injection H as <-; exact Hacc.
  - unfold to_digit.
    destruct ((48 <=? c) && (c <=? 57))%N eqn:Hd; [|discriminate].
    apply andb_true_iff in Hd as [H1 H2]. apply N.leb_le in H1.
    destruct (i64_max <? acc * 10 + (Z.of_N c - 48))%Z eqn:Hm; [discriminate|].
    apply Z.ltb_ge in Hm. apply IH. lia.
Qed.

Lemma accumulate_neg_range (acc z : Z) (ds : str) :
  (i64_min <= acc <= 0)%Z -> accumulate_neg acc ds = Some z -> (i64_min <= z <= 0)%Z.
Proof.
  revert acc; induction ds as [|c ds IH]; intros acc Hacc; simpl.
  - intros H; injection H as <-; exact Hacc.
  - unfold to_digit.
    destruct ((48 <=? c) && (c <=? 57))%N eqn:Hd; [|discriminate].
    apply andb_true_iff in Hd as [H1 H2]. apply N.leb_le in H1.
    destruct (acc * 10 - (Z.of_N c - 48) <? i64_min)%Z eqn:Hm; [discriminate|].
    apply Z.ltb_ge in Hm. apply IH. lia.
Qed.

Lemma parse_i64_range (src : str) (z : Z) :
  parse_i64 src = Some z -> (i64_min <= z <= i64_max)%Z.
Proof.
  assert (Hb : (i64_min <= 0 <= i64_max)%Z) by (unfold i64_min, i64_max; lia).
  intros H.
  assert (Hp : forall ds, accumulate_pos 0 ds = Some z -> (i64_min <= z <= i64_max)%Z).
  { intros ds Hds. apply accumulate_pos_range in Hds; [lia|lia]. }
  assert (Hn : forall ds, accumulate_neg 0 ds = Some z -> (i64_min <= z <= i64_max)%Z).
  { intros ds Hds. apply accumulate_neg_range in Hds; [lia|lia]. }
  unfold parse_i64 in H.
  destruct src as [|c [|c' ds]]; [discriminate| |].
  - destruct c as [|p]; [exact (Hp _ H)|].
    repeat (destruct p as [p|p|]; try discriminate; try exact (Hp _ H)).
  - destruct c as [|p]; [exact (Hp _ H)|].
    repeat (destruct p as [p|p|]; try exact (Hp _ H); try exact (Hn _ H)).
Qed.

Lemma parse_line_invalid_size (line_ m c1 c2 c3 sz : str) (rest : list str) :
  starts_with line_ total_prefix = false ->
  split_whitespace line_ = m :: c1 :: c2 :: c3 :: sz :: rest ->
  skip_mode m = false ->
  parse_i64 sz = None ->
  parse_line line_ = Err (InvalidSize sz).
Proof.
  intros Ht Hs Hm Hsz. unfold parse_line.
  assert (Hne : is_empty line_ = false).
  { destruct line_; [discriminate|reflexivity]. }
  rewrite Hne, Ht, Hs. simpl. now rewrite Hm, Hsz.
Qed.

(** C4: for a line that is not skipped, a fifth column that does not parse
    as an [i64] (see [parse_i64]) makes the whole parse fail with
    [InvalidSize] carrying that very token (once the lines before it are
    accepted); a file entry's [size_bytes] is the fifth column parsed; and a
    parsed size lies in the signed 64-bit range. *)
Theorem size_column_is_i64 :
  (forall (s : str) (pre post : list str) (l m c1 c2 c3 sz : str) (rest : list str),
     lines (strip_continuation s) = pre ++ l :: post ->
     Forall (fun l' => exists r, parse_line (trim l') = Ok r) pre ->
     starts_with (trim l) total_prefix = false ->
     split_whitespace (trim l) = m :: c1 :: c2 :: c3 :: sz :: rest ->
     skip_mode m = false ->
     parse_i64 sz = None ->
     from_str s = Err (mkError (InvalidSize sz) (trim l))) /\
  (forall (line_ : str) (f : LsOutputFile),
     parse_line line_ = Ok (Some (File f)) ->
     exists m c1 c2 c3 sz rest,
       split_whitespace line_ = m :: c1 :: c2 :: c3 :: sz :: rest /\
       parse_i64 sz = Some (size_bytes f)) /\
  (forall (sz : str) (z : Z), parse_i64 sz = Some z -> (i64_min <= z <= i64_max)%Z).
Proof.
  split; [|split].
  - intros s pre post l m c1 c2 c3 sz rest Hs Hpre Ht Hsplit Hm Hsz.
    apply (from_str_first_error s pre post l); auto.
    now apply (parse_line_invalid_size _ m c1 c2 c3 sz rest).
  - intros line_ f H. apply parse_line_some in H.
    destruct H as (m & c1 & c2 & c3 & sz & c5 & c6 & c7 & parts & size & n &
                   _ & _ & Hs & _ & Hsz & _ & _ & _ & [(_ & _ & _ & He)|(_ & _ & He)]);
      [discriminate|].
    injection He as ->.
    exists m, c1, c2, c3, sz, (c5 :: c6 :: c7 :: parts). split; auto.
  - exact parse_i64_range.
Qed.

Definition c4_ok_line : str := s2l "-rw-r--r-- 1 u u 5 Jan 1 00:00 a".
Definition c4_big_line : str := s2l "-rw-r--r-- 1 u u 9223372036854775808 Jan 1 00:00 big".
Definition c4_input : str := c4_ok_line ++ [10%N] ++ c4_big_line.

Lemma size_column_is_i64_witness :
  from_str c4_input = Err (mkError (InvalidSize (s2l "9223372036854775808")) (trim c4_big_line)) /\
  (exists m c1 c2 c3 sz rest,
     split_whitespace c4_ok_line = m :: c1 :: c2 :: c3 :: sz :: rest /\
     parse_i64 sz = Some (size_bytes (mkFile (s2l "a") 5))) /\
  (i64_min <= 5 <= i64_max)%Z.
Proof.
  split; [|split].
  - apply (proj1 size_column_is_i64) with
      (pre := [c4_ok_line]) (post := []) (m := s2l "-rw-r--r--") (c1 := s2l "1")
      (c2 := s2l "u") (c3 := s2l "u") (rest := map s2l ["Jan"; "1"; "00:00"; "big"]%string).
    + vm_compute. reflexivity.
    + repeat constructor. eexists. vm_compute. reflexivity.
    + vm_compute. reflexivity.
    + vm_compute. reflexivity.
    + vm_compute. reflexivity.
    + vm_compute. reflexivity.
  - apply (proj1 (proj2 size_column_is_i64) c4_ok_line). vm_compute. reflexivity.
  - apply (proj2 (proj2 size_column_is_i64) (s2l "5")). vm_compute. reflexivity.
Defined.

(** ** C5: the Name Decoder against the spec's rules *)

Module NameDecoderSpec.

(** The spec's escape table: [n], [r], [t] give newline, carriage return
    and tab; any other character is taken literally. *)
Definition spec_escape (c : char) : char :=
  if (c =? 110)%N then 10%N
  else if (c =? 114)%N then 13%N
  else if (c =? 116)%N then 9%N
  else c.

(** Scanning character by character: a backslash introduces an escape and
    is dropped. *)
Inductive SpecUnescapes : str -> str -> Prop :=
| su_nil : SpecUnescapes [] []
| su_plain c s r : c <> backslash -> SpecUnescapes s r -> SpecUnescapes (c :: s) (c :: r)
| su_escape c s r : SpecUnescapes s r -> SpecUnescapes (backslash :: c :: s) (spec_escape c :: r).

(** A backslash with nothing following it. *)
Inductive SpecUnterminated : str -> Prop :=
| sut_end : SpecUnterminated [backslash]
| sut_plain c s : c <> backslash -> SpecUnterminated s -> SpecUnterminated (c :: s)
| sut_escape c s : SpecUnterminated s -> SpecUnterminated (backslash :: c :: s).

(** Rules 1-4 of the spec, in precedence order. *)
Inductive SpecDecodes : str -> result str ErrorKind -> Prop :=
| sd_empty : SpecDecodes [] (Err MissingName)
| sd_dq_ok mid v : SpecUnescapes mid v -> v <> [] ->
    SpecDecodes (dquote :: mid ++ [dquote]) (Ok v)
| sd_dq_empty mid : SpecUnescapes mid [] ->
    SpecDecodes (dquote :: mid ++ [dquote]) (Err EmptyQuotedName)
| sd_dq_unterminated mid : SpecUnterminated mid ->
    SpecDecodes (dquote :: mid ++ [dquote]) (Err InvalidEscapeSequence)
| sd_sq_ok mid : mid <> [] -> SpecDecodes (squote :: mid ++ [squote]) (Ok mid)
| sd_sq_empty : SpecDecodes [squote; squote] (Err EmptyQuotedName)
| sd_verbatim t : t <> [] ->
    (forall mid, t <> dquote :: mid ++ [dquote]) ->
    (forall mid, t <> squote :: mid ++ [squote]) ->
    SpecDecodes t (Ok t).

Lemma unescape_loop_ok (s v acc : str) :
  SpecUnescapes s v -> unescape_loop s acc = Ok (acc ++ v).
Proof.
  intros H; revert acc; induction H as [|c s r Hc H IH|c s r H IH]; intros acc; simpl.
  - now rewrite app_nil_r.
  - assert (E : (c =? backslash)%N = false) by (apply N.eqb_neq; exact Hc).
    rewrite E, IH, <- app_assoc. reflexivity.
  - rewrite IH, <- app_assoc. reflexivity.
Qed.

Lemma unescape_loop_unterminated (s acc : str) :
  SpecUnterminated s -> unescape_loop s acc = Err InvalidEscapeSequence.
Proof.
  intros H; revert acc; induction H as [|c s Hc H IH|c s H IH]; intros acc; simpl.
  - reflexivity.
  - assert (E : (c =? backslash)%N = false) by (apply N.eqb_neq; exact Hc).
    rewrite E. apply IH.
  - apply IH.
Qed.

Lemma unescape_total (s : str) : (exists v, SpecUnescapes s v) \/ SpecUnterminated s.
Proof.
  remember (List.length s) as n eqn:Hn.
  revert s Hn; induction n as [n IH] using lt_wf_ind; intros s Hn.
  destruct s as [|c s]; [left; exists []; constructor|].
  destruct (N.eq_dec c backslash) as [->|Hc].
  - destruct s as [|c' s]; [right; constructor|].
    destruct (IH (List.length s) ltac:(simpl in Hn; lia) s eq_refl) as [[v Hv]|Hu].
    + left. exists (spec_escape c' :: v). now constructor.
    + right. now constructor.
  - destruct (IH (List.length s) ltac:(simpl in Hn; lia) s eq_refl) as [[v Hv]|Hu].
    + left. exists (c :: v). now constructor.
    + right. now constructor.
Qed.

Lemma utf8_width_pos (c : char) : (1 <= utf8_width c)%nat.
Proof.
  unfold utf8_width.
  destruct (c <? 0x80)%N, (c <? 0x800)%N, (c <? 0x10000)%N; lia.
Qed.

Lemma utf8_len_app (a b : str) : utf8_len (a ++ b) = (utf8_len a + utf8_len b)%nat.
Proof. induction a as [|c a IH]; simpl; [reflexivity|]. rewrite IH. lia. Qed.

Lemma utf8_len_ge_length (s : str) : (List.length s <= utf8_len s)%nat.
Proof. induction s as [|c s IH]; simpl; [lia|]. pose proof (utf8_width_pos c). lia. Qed.

Lemma last_char_snoc (t : str) (d : char) : last_char (t ++ [d]) = Some d.
Proof. unfold last_char. now rewrite rev_app_distr. Qed.

Lemma inner_wrapped (c d : char) (t : str) : inner (c :: t ++ [d]) = t.
Proof. unfold inner. simpl. apply removelast_last. Qed.

(** [parse_name] on a token of at least two characters. *)
Lemma parse_name_wrapped (c d : char) (t : str) :
  parse_name (c :: t ++ [d]) =
    if (c =? dquote)%N && (d =? dquote)%N then
      let* value := unescape_double_quoted t in
      if is_empty value then Err EmptyQuotedName else Ok value
    else if (c =? squote)%N && (d =? squote)%N then
      if is_empty t then Err EmptyQuotedName else Ok t
    else Ok (c :: t ++ [d]).
Proof.
  unfold parse_name. simpl is_empty. cbv iota beta.
  assert (Hl : (2 <=? utf8_len (c :: t ++ [d]))%nat = true).
  { apply Nat.leb_le. pose proof (utf8_len_ge_length (c :: t ++ [d])) as H.
    assert (E : List.length (c :: t ++ [d]) = S (S (List.length t)))
      by (simpl; rewrite length_app; simpl; lia).
    lia. }
  rewrite Hl.
  assert (Hlast : last_char (c :: t ++ [d]) = Some d) by exact (last_char_snoc (c :: t) d).
  rewrite Hlast, inner_wrapped. reflexivity.
Qed.

Lemma parse_name_single (c : char) : parse_name [c] = Ok [c].
Proof.
  unfold parse_name. simpl is_empty. cbv iota beta.
  destruct (2 <=? utf8_len [c])%nat eqn:Hl; [|reflexivity].
  apply Nat.leb_le in Hl. simpl in Hl. unfold utf8_width in Hl.
  destruct (c <? 0x80)%N eqn:Ha; [lia|].
  apply N.ltb_ge in Ha.
  unfold last_char; simpl.
  assert (E1 : (c =? dquote)%N = false) by (apply N.eqb_neq; unfold dquote; lia).
  assert (E2 : (c =? squote)%N = false) by (apply N.eqb_neq; unfold squote; lia).
  now rewrite E1, E2.
Qed.

Lemma wrapped_inv (c d q : char) (t mid : str) :
  c :: t ++ [d] = q :: mid ++ [q] -> c = q /\ d = q /\ t = mid.
Proof.
  intros H. injection H as -> H. apply app_inj_tail in H as [-> ->]. auto.
Qed.

Lemma single_not_wrapped (c q : char) (mid : str) : [c] <> q :: mid ++ [q].
Proof. intros H. injection H as _ H. destruct mid; discriminate. Qed.

End NameDecoderSpec.

Import NameDecoderSpec.

Lemma parse_name_sound (raw : str) (r : result str ErrorKind) :
  SpecDecodes raw r -> parse_name raw = r.
Proof.
  intros H; destruct H as [|mid v Hv Hne|mid Hv|mid Hu|mid Hne| |t Hne Hdq Hsq].
  - reflexivity.
  - rewrite parse_name_wrapped. simpl. unfold unescape_double_quoted.
    rewrite (unescape_loop_ok mid v [] Hv). simpl.
    destruct v; [contradiction|reflexivity].
  - rewrite parse_name_wrapped. simpl. unfold unescape_double_quoted.
    rewrite (unescape_loop_ok mid [] [] Hv). reflexivity.
  - rewrite parse_name_wrapped. simpl. unfold unescape_double_quoted.
    rewrite (unescape_loop_unterminated mid [] Hu). reflexivity.
  - rewrite parse_name_wrapped. simpl. destruct mid; [contradiction|reflexivity].
  - reflexivity.
  - destruct t as [|c t]; [contradiction|].
    destruct t as [|d t _] using rev_ind; [apply parse_name_single|].
    rewrite parse_name_wrapped.
    destruct ((c =? dquote)%N && (d =? dquote)%N) eqn:Ed.
    + apply andb_true_iff in Ed as [E1 E2]. apply N.eqb_eq in E1, E2. subst.
      exfalso. exact (Hdq t eq_refl).
    + destruct ((c =? squote)%N && (d =? squote)%N) eqn:Es; [|reflexivity].
      apply andb_true_iff in Es as [E1 E2]. apply N.eqb_eq in E1, E2. subst.
      exfalso. exact (Hsq t eq_refl).
Qed.

Lemma parse_name_complete (raw : str) : SpecDecodes raw (parse_name raw).
Proof.
  destruct raw as [|c t]; [constructor|].
  destruct t as [|d t _] using rev_ind.
  { rewrite parse_name_single. constructor; [discriminate| |];
      intros mid; apply single_not_wrapped. }
  rewrite parse_name_wrapped.
  destruct ((c =? dquote)%N && (d =? dquote)%N) eqn:Ed.
  - apply andb_true_iff in Ed as [E1 E2]. apply N.eqb_eq in E1, E2. subst.
    unfold unescape_double_quoted.
    destruct (unescape_total t) as [[v Hv]|Hu].
    + rewrite (unescape_loop_ok t v [] Hv). simpl.
      destruct v as [|x v]; simpl.
      * now constructor.
      * constructor; [exact Hv|discriminate].
    + rewrite (unescape_loop_unterminated t [] Hu). simpl. now constructor.
  - destruct ((c =? squote)%N && (d =? squote)%N) eqn:Es.
    + apply andb_true_iff in Es as [E1 E2]. apply N.eqb_eq in E1, E2. subst.
      destruct t as [|x t].
      * constructor.
      * apply (sd_sq_ok (x :: t)). discriminate.
    + constructor; [discriminate| |]; intros mid Hw.
      * apply wrapped_inv in Hw as (-> & -> & _).
        rewrite N.eqb_refl in Ed. discriminate.
      * apply wrapped_inv in Hw as (-> & -> & _).
        rewrite N.eqb_refl in Es. discriminate.
Qed.

(** C5: [parse_name] decides exactly the spec's Name Decoder: empty token is
    [MissingName]; a token wrapped in double quotes (so at least 2
    characters) is unescaped, an unterminated backslash being
    [InvalidEscapeSequence] and an empty result [EmptyQuotedName]; otherwise a
    token wrapped in single quotes gives its interior literally (empty:
    [EmptyQuotedName]); otherwise the token itself. *)
Theorem parse_name_implements_spec (raw : str) (r : result str ErrorKind) :
  parse_name raw = r <-> SpecDecodes raw r.
Proof.
  split.
  - intros <-. apply parse_name_complete.
  - apply parse_name_sound.
Qed.

Lemma parse_name_implements_spec_witness :
  parse_name ([dquote] ++ s2l "a\tb" ++ [dquote]) = Ok [97%N; 9%N; 98%N] /\
  SpecDecodes ([dquote] ++ s2l "a\tb" ++ [dquote]) (Ok [97%N; 9%N; 98%N]).
Proof.
  split; [vm_compute; reflexivity|].
  apply (proj1 (parse_name_implements_spec _ _)). vm_compute. reflexivity.
Defined.

(** ** C6 *)

Lemma drop_while_split (f : char -> bool) (s : str) :
  exists k, s = k ++ drop_while f s /\ Forall (fun c => f c = true) k /\
            match drop_while f s with c :: _ => f c = false | [] => True end.
Proof.
  induction s as [|c s IH]; simpl.
  - exists []. repeat split; constructor.
  - destruct (f c) eqn:Ec.
    + destruct IH as (k & Hk & Hf & Hd). exists (c :: k). simpl. rewrite <- Hk.
      repeat split; auto.
    + exists []. simpl. repeat split; auto.
Qed.

(** [while s.ends_with('/') { s.pop(); }] removes a run of trailing slashes
    and leaves none. *)
Lemma pop_while_ends_with_spec (s : str) :
  exists k, s = pop_while_ends_with s slash ++ repeat slash k /\
            ends_with (pop_while_ends_with s slash) slash = false.
Proof.
  unfold pop_while_ends_with, ends_with.
  destruct (drop_while_split (fun d => (d =? slash)%N) (rev s)) as (k & Hk & Hf & Hd).
  exists (List.length k). split.
  - assert (Hrep : k = repeat slash (List.length k)).
    { clear Hk Hd. induction Hf as [|c k Hc Hf IH]; simpl; [reflexivity|].
      apply N.eqb_eq in Hc. now rewrite Hc, <- IH. }
    rewrite <- (rev_involutive s) at 1. rewrite Hk at 1.
    rewrite rev_app_distr, Hrep at 1. rewrite rev_repeat. reflexivity.
  - rewrite rev_involutive.
    destruct (drop_while (fun d => (d =? slash)%N) (rev s)); auto.
Qed.

(** C6: a line that yields an entry yields a [Folder] exactly when its name
    tokens rejoined with single spaces end in ['/']; the folder's name is
    the decoding of the rejoined name with its whole run of trailing slashes
    removed; otherwise the line yields a [File] with the decoded rejoined
    name and the parsed size. *)
Theorem parse_line_directory_classification (line_ : str) (e : ParsedLine) :
  parse_line line_ = Ok (Some e) ->
  exists m c1 c2 c3 sz c5 c6 c7 parts size n,
    split_whitespace line_ = m :: c1 :: c2 :: c3 :: sz :: c5 :: c6 :: c7 :: parts /\
    parse_i64 sz = Some size /\
    let raw := join [space] parts in
    (ends_with raw slash = true /\
       (exists k, raw = pop_while_ends_with raw slash ++ repeat slash k) /\
       ends_with (pop_while_ends_with raw slash) slash = false /\
       parse_name (pop_while_ends_with raw slash) = Ok n /\ e = Folder n)
    \/ (ends_with raw slash = false /\ parse_name raw = Ok n /\ e = File (mkFile n size)).
Proof.
  intros H. apply parse_line_some in H.
  destruct H as (m & c1 & c2 & c3 & sz & c5 & c6 & c7 & parts & size & n &
                 _ & _ & Hs & _ & Hsz & _ & _ & _ & Hcase).
  exists m, c1, c2, c3, sz, c5, c6, c7, parts, size, n.
  split; [exact Hs|]. split; [exact Hsz|]. cbv zeta.
  destruct Hcase as [(Hd & Hn & _ & He)|(Hd & Hn & He)]; [left|right; auto].
  destruct (pop_while_ends_with_spec (join [space] parts)) as (k & Hk & Hk').
  repeat split; eauto.
Qed.

Definition c6_dir_line : str := s2l "drwxr-xr-x 2 u u 4096 Jan 1 12:00 a b//".

Lemma parse_line_directory_classification_witness :
  parse_line c6_dir_line = Ok (Some (Folder (s2l "a b"))) /\
  exists m c1 c2 c3 sz c5 c6 c7 parts size n,
    split_whitespace c6_dir_line = m :: c1 :: c2 :: c3 :: sz :: c5 :: c6 :: c7 :: parts /\
    parse_i64 sz = Some size /\
    let raw := join [space] parts in
    (ends_with raw slash = true /\
       (exists k, raw = pop_while_ends_with raw slash ++ repeat slash k) /\
       ends_with (pop_while_ends_with raw slash) slash = false /\
       parse_name (pop_while_ends_with raw slash) = Ok n /\ Folder (s2l "a b") = Folder n)
    \/ (ends_with raw slash = false /\ parse_name raw = Ok n /\
        Folder (s2l "a b") = File (mkFile n size)).
Proof.
  split; [vm_compute; reflexivity|].
  apply parse_line_directory_classification. vm_compute. reflexivity.
Defined.

(** ** C7 and C8: the driver *)

Lemma strip_prefix_app (p r : str) : strip_prefix p (p ++ r) = Some r.
Proof. induction p as [|x p IH]; simpl; [reflexivity|]. now rewrite N.eqb_refl. Qed.

Lemma strip_prefix_some (p s r : str) : strip_prefix p s = Some r -> s = p ++ r.
Proof.
  revert s; induction p as [|x p IH]; intros [|y s]; simpl; try congruence.
  destruct (x =? y)%N eqn:E; [|discriminate].
  apply N.eqb_eq in E as ->. intros H. now rewrite (IH s H).
Qed.

Lemma strip_continuation_cases (s : str) :
  (exists r, s = [backslash; 13%N; 10%N] ++ r /\ strip_continuation s = r) \/
  (exists r, s = [backslash; 10%N] ++ r /\ strip_continuation s = r) \/
  ((forall r, s <> [backslash; 13%N; 10%N] ++ r) /\ (forall r, s <> [backslash; 10%N] ++ r) /\
   strip_continuation s = s).
Proof.
  unfold strip_continuation.
  destruct (strip_prefix [backslash; 13%N; 10%N] s) eqn:E1.
  { left. exists l. split; [apply strip_prefix_some; exact E1|reflexivity]. }
  destruct (strip_prefix [backslash; 10%N] s) eqn:E2.
  { right; left. exists l. split; [apply strip_prefix_some; exact E2|reflexivity]. }
  right; right. split; [|split; [|reflexivity]]; intros r ->.
  - now rewrite strip_prefix_app in E1.
  - now rewrite strip_prefix_app in E2.
Qed.

Definition admin_line (l : str) : Prop :=
  trim l = [] \/ exists r, trim l = total_prefix ++ r.

Lemma parse_line_admin (l : str) : admin_line l -> parse_line (trim l) = Ok None.
Proof.
  unfold parse_line. intros [-> | [r ->]]; [reflexivity|].
  unfold starts_with. rewrite strip_prefix_app, orb_true_r. reflexivity.
Qed.

Lemma parse_lines_admin (ls : list str) fs ds :
  Forall admin_line ls -> parse_lines ls fs ds = Ok (fs, ds).
Proof.
  induction 1 as [|l ls Hl Hls IH]; simpl; [reflexivity|].
  now rewrite parse_line_admin.
Qed.

Lemma lines_marker_crlf (r : str) : lines ([backslash; 13%N; 10%N] ++ r) = [backslash] :: lines r.
Proof. reflexivity. Qed.

Lemma lines_marker_lf (r : str) : lines ([backslash; 10%N] ++ r) = [backslash] :: lines r.
Proof. reflexivity. Qed.

(** A leading continuation marker is a first line ["\"], which is neither
    blank nor a ["total "] header. *)
Lemma marker_line_not_admin : ~ admin_line [backslash].
Proof.
  unfold admin_line. intros [H | [r' H]]; vm_compute in H; discriminate.
Qed.

(** C7: a line that is blank after trimming or starts with ["total "] is
    skipped without error, and an input made only of such lines parses to
    the empty listing. *)
Theorem blank_and_total_lines_skipped :
  (forall l : str, admin_line l -> parse_line (trim l) = Ok None) /\
  (forall s : str, Forall admin_line (lines s) -> from_str s = Ok (mkLsOutput [] [])).
Proof.
  split; [exact parse_line_admin|].
  intros s Hs. unfold from_str, from_lines.
  destruct (strip_continuation_cases s) as [(r & -> & _)|[(r & -> & _)|(_ & _ & ->)]].
  - exfalso. rewrite lines_marker_crlf in Hs. inversion Hs as [|l ls Hl _ E].
    exact (marker_line_not_admin Hl).
  - exfalso. rewrite lines_marker_lf in Hs. inversion Hs as [|l ls Hl _ E].
    exact (marker_line_not_admin Hl).
  - rewrite parse_lines_admin by exact Hs. reflexivity.
Qed.

Definition c7_input : str := s2l ("total 16" ++ nl ++ "   " ++ nl ++ nl ++ "total 0").

Lemma blank_and_total_lines_skipped_witness :
  admin_line (s2l "  total 16 ") /\ parse_line (trim (s2l "  total 16 ")) = Ok None /\
  Forall admin_line (lines c7_input) /\ from_str c7_input = Ok (mkLsOutput [] []).
Proof.
  assert (H1 : admin_line (s2l "  total 16 ")).
  { right. exists (s2l "16"). vm_compute. reflexivity. }
  assert (H2 : Forall admin_line (lines c7_input)).
  { assert (E : lines c7_input = [s2l "total 16"; s2l "   "; []; s2l "total 0"])
      by (vm_compute; reflexivity).
    rewrite E. apply Forall_cons; [|apply Forall_cons; [|apply Forall_cons;
      [|apply Forall_cons; [|apply Forall_nil]]]].
    - right. exists (s2l "16"). vm_compute. reflexivity.
    - left. vm_compute. reflexivity.
    - left. vm_compute. reflexivity.
    - right. exists (s2l "0"). vm_compute. reflexivity. }
  split; [exact H1|]. split; [exact (proj1 blank_and_total_lines_skipped _ H1)|].
  split; [exact H2|]. exact (proj2 blank_and_total_lines_skipped _ H2).
Defined.

(** C8: a leading ["\\\r\n"] or ["\\\n"] is removed once and the rest is
    parsed as it is (a second marker is then an ordinary line); an input
    that does not start with a marker is parsed whole. *)
Theorem continuation_marker_stripped_once :
  (forall r : str, from_str ([backslash; 13%N; 10%N] ++ r) = from_lines (lines r)) /\
  (forall r : str, from_str ([backslash; 10%N] ++ r) = from_lines (lines r)) /\
  (forall s : str,
     (forall r, s <> [backslash; 13%N; 10%N] ++ r) ->
     (forall r, s <> [backslash; 10%N] ++ r) ->
     from_str s = from_lines (lines s)).
Proof.
  split; [|split].
  - intros r. unfold from_str, strip_continuation. now rewrite strip_prefix_app.
  - intros r. unfold from_str, strip_continuation. now rewrite strip_prefix_app.
  - intros s H1 H2. unfold from_str.
    destruct (strip_continuation_cases s) as [(r & E & _)|[(r & E & _)|(_ & _ & ->)]];
      [exfalso; exact (H1 r E)|exfalso; exact (H2 r E)|reflexivity].
Qed.

Definition c8_rest : str := s2l "-rw-r--r-- 1 u u 3 Jan 1 00:00 a".

Lemma continuation_marker_stripped_once_witness :
  from_str ([backslash; 13%N; 10%N] ++ c8_rest) = Ok (mkLsOutput [mkFile (s2l "a") 3] []) /\
  from_str ([backslash; 10%N] ++ [backslash; 10%N] ++ c8_rest) =
    Err (mkError MissingLinkCount [backslash]) /\
  from_str (c8_rest ++ [10%N; backslash; 10%N]) = from_lines (lines (c8_rest ++ [10%N; backslash; 10%N])).
Proof.
  split; [|split].
  - rewrite (proj1 continuation_marker_stripped_once). vm_compute. reflexivity.
  - rewrite (proj1 (proj2 continuation_marker_stripped_once)). vm_compute. reflexivity.
  - apply (proj2 (proj2 continuation_marker_stripped_once)); intros r H; vm_compute in H; discriminate.
Defined.

(** ** C9 *)

(** [parse_line] with the [if name.is_empty() { return Ok(None); }] guard of
    the directory branch removed. *)
Definition parse_line_without_empty_guard (line : str) : result (option ParsedLine) ErrorKind :=
  if is_empty line || starts_with line total_prefix then Ok None else
  let parts := split_whitespace line in
  let* '(file_mode, parts) := ok_or (next parts) MissingFileMode in
  if skip_mode file_mode then Ok None else
  let* '(_, parts) := ok_or (next parts) MissingLinkCount in
  let* '(_, parts) := ok_or (next parts) MissingOwner in
  let* '(_, parts) := ok_or (next parts) MissingGroup in
  let* '(size_token, parts) := ok_or (next parts) MissingSize in
  let* size := ok_or (parse_i64 size_token) (InvalidSize size_token) in
  let* '(_, parts) := ok_or (next parts) MissingMonth in
  let* '(_, parts) := ok_or (next parts) MissingDay in
  let* '(_, parts) := ok_or (next parts) MissingTimestamp in
  let raw_name := join [space] parts in
  if is_empty raw_name then Err MissingName else
  let is_directory := ends_with raw_name slash in
  let raw_name := if is_directory then pop_while_ends_with raw_name slash else raw_name in
  let* name_ := parse_name raw_name in
  if str_eqb name_ dot || str_eqb name_ dotdot then Ok None else
  if is_directory then Ok (Some (Folder name_))
  else Ok (Some (File (mkFile name_ size))).

Lemma parse_name_ok_nonempty (raw n : str) : parse_name raw = Ok n -> n <> [].
Proof.
  intros H. pose proof (parse_name_complete raw) as D. rewrite H in D.
  inversion D; subst; auto.
Qed.

(** C9: the Name Decoder never returns an empty name (for a non-empty token,
    nor for any other), so the guard that skips a directory with an empty
    decoded name never fires: [parse_line] agrees with the same function
    without it on every line. *)
Theorem empty_directory_name_guard_unreachable :
  (forall raw n : str, raw <> [] -> parse_name raw = Ok n -> n <> []) /\
  (forall line_ : str, parse_line line_ = parse_line_without_empty_guard line_).
Proof.
  split; [intros raw n _; apply parse_name_ok_nonempty|].
  intros line_. unfold parse_line, parse_line_without_empty_guard.
  destruct (is_empty line_ || starts_with line_ total_prefix); [reflexivity|].
  destruct (split_whitespace line_) as [|m [|c1 [|c2 [|c3 [|sz [|c5 [|c6 [|c7 parts]]]]]]]];
    simpl; try reflexivity;
    destruct (skip_mode m); try reflexivity;
    destruct (parse_i64 sz) as [size|]; simpl; try reflexivity.
  destruct (join [space] parts) as [|r0 rs]; simpl; [reflexivity|].
  destruct (ends_with (r0 :: rs) slash); [|reflexivity].
  destruct (parse_name (pop_while_ends_with (r0 :: rs) slash)) as [n|k] eqn:En; simpl; [|reflexivity].
  destruct (str_eqb n dot || str_eqb n dotdot); [reflexivity|].
  destruct n as [|c n]; [exfalso; exact (parse_name_ok_nonempty _ _ En eq_refl)|reflexivity].
Qed.

Lemma empty_directory_name_guard_unreachable_witness :
  parse_name (s2l "''") = Err EmptyQuotedName /\
  (s2l "'x'" <> [] /\ parse_name (s2l "'x'") = Ok (s2l "x") /\ s2l "x" <> []) /\
  parse_line (s2l "drwxr-xr-x 2 u u 4096 Jan 1 12:00 ''/") =
    parse_line_without_empty_guard (s2l "drwxr-xr-x 2 u u 4096 Jan 1 12:00 ''/").
Proof.
  split; [vm_compute; reflexivity|]. split.
  - assert (Hne : s2l "'x'" <> []) by discriminate.
    assert (Hx : parse_name (s2l "'x'") = Ok (s2l "x")) by (vm_compute; reflexivity).
    exact (conj Hne (conj Hx (proj1 empty_directory_name_guard_unreachable _ _ Hne Hx))).
  - apply (proj2 empty_directory_name_guard_unreachable).
Defined.

(** ** C10 *)

Lemma parse_name_unwrapped_verbatim (raw n : str) :
  parse_name raw = Ok n ->
  (forall mid, raw <> dquote :: mid ++ [dquote]) ->
  (forall mid, raw <> squote :: mid ++ [squote]) ->
  n = raw.
Proof.
  intros H Hdq Hsq. pose proof (parse_name_complete raw) as D. rewrite H in D.
  inversion D; subst.
  - exfalso. eapply Hdq. reflexivity.
  - exfalso. eapply Hsq. reflexivity.
  - reflexivity.
Qed.

Definition c10_arrow_line : str := s2l "-rw-r--r--  1 root root   16 Jan  1 00:01 arrow -> name".

(** C10 (as corrected): no [" -> target"] suffix is ever removed.  The name
    of a file entry is the Name Decoder's result on all name tokens rejoined
    with single spaces, and of a folder entry on that rejoined name without
    its trailing slashes; when the decoded token is not wrapped in quotes
    the name is that token verbatim.  The line of the repository's test
    yields the file ["arrow -> name"]. *)
Theorem arrow_names_not_stripped :
  (forall (line_ : str) (e : ParsedLine),
     parse_line line_ = Ok (Some e) ->
     exists m c1 c2 c3 sz c5 c6 c7 parts,
       split_whitespace line_ = m :: c1 :: c2 :: c3 :: sz :: c5 :: c6 :: c7 :: parts /\
       let raw := join [space] parts in
       let token := if ends_with raw slash then pop_while_ends_with raw slash else raw in
       exists n, parse_name token = Ok n /\
         (e = Folder n \/ exists size, e = File (mkFile n size)) /\
         ((forall mid, token <> dquote :: mid ++ [dquote]) ->
          (forall mid, token <> squote :: mid ++ [squote]) -> n = token)) /\
  parse_line c10_arrow_line = Ok (Some (File (mkFile (s2l "arrow -> name") 16))).
Proof.
  split; [|vm_compute; reflexivity].
  intros line_ e H. apply parse_line_some in H.
  destruct H as (m & c1 & c2 & c3 & sz & c5 & c6 & c7 & parts & size & n &
                 _ & _ & Hs & _ & _ & _ & _ & _ & Hcase).
  exists m, c1, c2, c3, sz, c5, c6, c7, parts. split; [exact Hs|]. cbv zeta.
  destruct Hcase as [(Hd & Hn & _ & He)|(Hd & Hn & He)]; rewrite Hd; exists n;
    (split; [exact Hn|]); (split; [eauto|]); intros Hdq Hsq;
    exact (parse_name_unwrapped_verbatim _ _ Hn Hdq Hsq).
Qed.

Definition c10_quoted_arrow_line : str :=
  s2l "-rw-r--r--  1 root root   16 Jan  1 00:01 'a' -> 'b'".

(** The name tokens ['a'], [->], ['b'] rejoin to ['a' -> 'b'], which is
    wrapped in single quotes: the entry is named [a' -> 'b], not the
    rejoined tokens. *)
Lemma arrow_name_not_verbatim_when_quote_wrapped :
  split_whitespace c10_quoted_arrow_line =
    map s2l ["-rw-r--r--"; "1"; "root"; "root"; "16"; "Jan"; "1"; "00:01"; "'a'"; "->"; "'b'"]%string /\
  parse_line c10_quoted_arrow_line = Ok (Some (File (mkFile (s2l "a' -> 'b") 16))) /\
  s2l "a' -> 'b" <> join [space] (map s2l ["'a'"; "->"; "'b'"]%string).
Proof.
  split; [vm_compute; reflexivity|]. split; [vm_compute; reflexivity|].
  vm_compute. discriminate.
Qed.

Lemma arrow_names_not_stripped_witness :
  parse_line c10_arrow_line = Ok (Some (File (mkFile (s2l "arrow -> name") 16))) /\
  exists m c1 c2 c3 sz c5 c6 c7 parts,
    split_whitespace c10_arrow_line = m :: c1 :: c2 :: c3 :: sz :: c5 :: c6 :: c7 :: parts /\
    let raw := join [space] parts in
    let token := if ends_with raw slash then pop_while_ends_with raw slash else raw in
    exists n, parse_name token = Ok n /\
      (File (mkFile (s2l "arrow -> name") 16) = Folder n \/
       exists size, File (mkFile (s2l "arrow -> name") 16) = File (mkFile n size)) /\
      ((forall mid, token <> dquote :: mid ++ [dquote]) ->
       (forall mid, token <> squote :: mid ++ [squote]) -> n = token).
Proof.
  split; [exact (proj2 arrow_names_not_stripped)|].
  apply (proj1 arrow_names_not_stripped). vm_compute. reflexivity.
Defined.

(** * Further properties of the parser *)

(** ** What a successful parse is made of *)

(** Whether a line's classification succeeds, and the entries it adds to
    each accumulator of [from_str]'s loop. *)
Definition line_ok (l : str) : bool :=
  match parse_line (trim l) with Ok _ => true | Err _ => false end.

Definition entry_files (l : str) : list LsOutputFile :=
  match parse_line (trim l) with Ok (Some (File f)) => [f] | _ => [] end.

Definition entry_folders (l : str) : list str :=
  match parse_line (trim l) with Ok (Some (Folder d)) => [d] | _ => [] end.

Lemma parse_lines_all_ok (ls : list str) fs ds :
  forallb line_ok ls = true ->
  parse_lines ls fs ds = Ok (fs ++ flat_map entry_files ls, ds ++ flat_map entry_folders ls).
Proof.
  revert fs ds; induction ls as [|l ls IH]; intros fs ds H; simpl.
  - now rewrite !app_nil_r.
  - simpl in H. apply andb_true_iff in H as [Hl H].
    unfold line_ok in Hl. unfold flat_map; fold (flat_map entry_files ls) (flat_map entry_folders ls).
    unfold entry_files at 1, entry_folders at 1.
    destruct (parse_line (trim l)) as [[[f|d]|]|k]; try discriminate; simpl;
      rewrite IH by exact H; rewrite <- ?app_assoc; reflexivity.
Qed.

Lemma parse_lines_ok_all (ls : list str) fs ds p :
  parse_lines ls fs ds = Ok p -> forallb line_ok ls = true.
Proof.
  revert fs ds; induction ls as [|l ls IH]; intros fs ds; simpl; [reflexivity|].
  unfold line_ok.
  destruct (parse_line (trim l)) as [[[f|d]|]|k]; try discriminate; simpl; apply IH.
Qed.

Lemma from_str_ok_iff_lemma (s : str) (out : LsOutput) :
  from_str s = Ok out <->
  forallb line_ok (lines (strip_continuation s)) = true /\
  out = mkLsOutput (sort_by file_cmp (flat_map entry_files (lines (strip_continuation s))))
                   (sort_by str_cmp (flat_map entry_folders (lines (strip_continuation s)))).
Proof.
  unfold from_str, from_lines. split.
  - destruct (parse_lines (lines (strip_continuation s)) [] []) as [[fs ds]|e] eqn:E;
      simpl; [|discriminate].
    intros H; injection H as <-.
    pose proof (parse_lines_ok_all _ _ _ _ E) as Hok. split; [exact Hok|].
    rewrite parse_lines_all_ok in E by exact Hok. injection E as <- <-. reflexivity.
  - intros [Hok ->]. rewrite parse_lines_all_ok by exact Hok. reflexivity.
Qed.

(** X1: [from_str] succeeds exactly when every line (after the continuation
    marker) classifies without error; its [files] are then the file entries
    of the lines, in line order, sorted by name, and its [folders] the folder
    entries sorted: each entry comes from exactly one line. *)
Theorem from_str_ok_iff (s : str) (out : LsOutput) :
  from_str s = Ok out <->
  forallb line_ok (lines (strip_continuation s)) = true /\
  out = mkLsOutput (sort_by file_cmp (flat_map entry_files (lines (strip_continuation s))))
                   (sort_by str_cmp (flat_map entry_folders (lines (strip_continuation s)))).
Proof. exact (from_str_ok_iff_lemma s out). Qed.

Lemma from_str_ok_iff_witness :
  from_str c1_input =
    Ok (mkLsOutput [mkFile (s2l "a") 9; mkFile (s2l "b") 7] [s2l "alpha"; s2l "zeta"]) /\
  forallb line_ok (lines (strip_continuation c1_input)) = true.
Proof.
  assert (H : from_str c1_input =
    Ok (mkLsOutput [mkFile (s2l "a") 9; mkFile (s2l "b") 7] [s2l "alpha"; s2l "zeta"]))
    by (vm_compute; reflexivity).
  split; [exact H|]. exact (proj1 (proj1 (from_str_ok_iff _ _) H)).
Defined.

(** ** Stability of the file sort *)

Lemma filter_insert_by_same_name (n : str) (x : LsOutputFile) (l : list LsOutputFile) :
  filter (fun f => str_eqb (name f) n) (insert_by file_cmp x l) =
  if str_eqb (name x) n then x :: filter (fun f => str_eqb (name f) n) l
  else filter (fun f => str_eqb (name f) n) l.
Proof.
  induction l as [|y l IH]; simpl; [destruct (str_eqb (name x) n); reflexivity|].
  destruct (file_cmp x y) eqn:E; simpl; try reflexivity.
  rewrite IH. destruct (str_eqb (name x) n) eqn:Ex, (str_eqb (name y) n) eqn:Ey; try reflexivity.
  apply str_eqb_eq in Ex, Ey. unfold file_cmp in E. rewrite Ex, Ey, str_cmp_refl in E.
  discriminate.
Qed.

Lemma filter_sort_by_same_name (n : str) (l : list LsOutputFile) :
  filter (fun f => str_eqb (name f) n) (sort_by file_cmp l) =
  filter (fun f => str_eqb (name f) n) l.
Proof.
  induction l as [|x l IH]; simpl; [reflexivity|].
  rewrite filter_insert_by_same_name, IH. reflexivity.
Qed.

(** X2: the file sort is stable: the files of a successful listing that share
    a name appear in the order of their lines in the input. *)
Theorem from_str_files_same_name_in_input_order (s : str) (out : LsOutput) (n : str) :
  from_str s = Ok out ->
  filter (fun f => str_eqb (name f) n) (files out) =
  filter (fun f => str_eqb (name f) n) (flat_map entry_files (lines (strip_continuation s))).
Proof.
  intros H. apply from_str_ok_iff_lemma in H as [_ ->]. simpl.
  apply filter_sort_by_same_name.
Qed.

Definition x2_input : str := s2l ("-rw-r--r-- 1 u u 2 Jan 1 00:00 dup" ++ nl ++
  "-rw-r--r-- 1 u u 5 Jan 1 00:00 a" ++ nl ++ "-rw-r--r-- 1 u u 1 Jan 1 00:00 dup").

Lemma from_str_files_same_name_in_input_order_witness :
  from_str x2_input =
    Ok (mkLsOutput [mkFile (s2l "a") 5; mkFile (s2l "dup") 2; mkFile (s2l "dup") 1] []) /\
  filter (fun f => str_eqb (name f) (s2l "dup"))
         [mkFile (s2l "a") 5; mkFile (s2l "dup") 2; mkFile (s2l "dup") 1] =
  filter (fun f => str_eqb (name f) (s2l "dup"))
         (flat_map entry_files (lines (strip_continuation x2_input))).
Proof.
  assert (H : from_str x2_input =
    Ok (mkLsOutput [mkFile (s2l "a") 5; mkFile (s2l "dup") 2; mkFile (s2l "dup") 1] []))
    by (vm_compute; reflexivity).
  split; [exact H|]. exact (from_str_files_same_name_in_input_order _ _ _ H).
Defined.

(** ** Reordering the input lines *)

Lemma str_cmp_eq (a b : str) : str_cmp a b = Eq -> a = b.
Proof.
  revert b; induction a as [|x a IH]; intros [|y b]; simpl; try congruence.
  destruct (N.compare x y) eqn:E; try discriminate.
  apply N.compare_eq_iff in E as ->. intros H. now rewrite (IH b H).
Qed.

Lemma str_le_trans (a b c : str) :
  str_cmp a b <> Gt -> str_cmp b c <> Gt -> str_cmp a c <> Gt.
Proof.
  revert b c; induction a as [|x a IH]; intros [|y b] [|z c]; simpl; try congruence.
  intros H1 H2.
  destruct (N.compare_spec x y) as [Exy|Exy|Exy]; try congruence;
  destruct (N.compare_spec y z) as [Eyz|Eyz|Eyz]; try congruence;
  destruct (N.compare_spec x z) as [Exz|Exz|Exz]; try congruence; try lia.
  eapply IH; eassumption.
Qed.

Lemma str_eqb_refl (a : str) : str_eqb a a = true.
Proof. now apply str_eqb_eq. Qed.

Lemma sorted_str_perm_unique (l1 l2 : list str) :
  Sorted (fun a b => str_cmp a b <> Gt) l1 -> Sorted (fun a b => str_cmp a b <> Gt) l2 ->
  Permutation l1 l2 -> l1 = l2.
Proof.
  assert (Tr : Transitive (fun a b : str => str_cmp a b <> Gt))
    by (intros a b c; apply str_le_trans).
  intros S1 S2. apply Sorted_StronglySorted in S1, S2; auto.
  revert l2 S2; induction S1 as [|x l1 S1 IH H1]; intros l2 S2 P.
  - symmetry. now apply Permutation_nil.
  - destruct S2 as [|y l2 S2 H2]; [apply Permutation_sym, Permutation_nil in P; discriminate|].
    assert (Hxy : x = y).
    { destruct (str_eqb x y) eqn:E; [now apply str_eqb_eq|].
      assert (Iy : In y (x :: l1)) by (apply (Permutation_in _ (Permutation_sym P)); left; auto).
      assert (Ix : In x (y :: l2)) by (apply (Permutation_in _ P); left; auto).
      destruct Iy as [->|Iy]; [now rewrite str_eqb_refl in E|].
      destruct Ix as [->|Ix]; [now rewrite str_eqb_refl in E|].
      rewrite Forall_forall in H1, H2.
      pose proof (H1 y Iy) as A. pose proof (H2 x Ix) as B.
      rewrite str_cmp_antisym in B.
      destruct (str_cmp x y) eqn:C; simpl in B; try congruence.
      apply str_cmp_eq in C. subst. now rewrite str_eqb_refl in E. }
    subst. f_equal. apply IH; auto. exact (Permutation_cons_inv P).
Qed.

Lemma from_lines_ok_iff (ls : list str) (out : LsOutput) :
  from_lines ls = Ok out <->
  forallb line_ok ls = true /\
  out = mkLsOutput (sort_by file_cmp (flat_map entry_files ls))
                   (sort_by str_cmp (flat_map entry_folders ls)).
Proof.
  unfold from_lines. split.
  - destruct (parse_lines ls [] []) as [[fs ds]|e] eqn:E; simpl; [|discriminate].
    intros H; injection H as <-.
    pose proof (parse_lines_ok_all _ _ _ _ E) as Hok. split; [exact Hok|].
    rewrite parse_lines_all_ok in E by exact Hok. injection E as <- <-. reflexivity.
  - intros [Hok ->]. rewrite parse_lines_all_ok by exact Hok. reflexivity.
Qed.

(** X3: reordering the lines of a listing that parses keeps it parsing, with
    the very same [folders] and the same [files] up to order (files that
    share a name may swap). *)
Theorem from_lines_reorder (ls ls' : list str) (out : LsOutput) :
  from_lines ls = Ok out -> Permutation ls ls' ->
  exists out', from_lines ls' = Ok out' /\ folders out' = folders out /\
               Permutation (files out) (files out').
Proof.
  intros H P. apply from_lines_ok_iff in H as [Hok ->].
  assert (Hok' : forallb line_ok ls' = true).
  { apply forallb_forall. intros l Hin. rewrite forallb_forall in Hok.
    apply Hok. apply (Permutation_in _ (Permutation_sym P) Hin). }
  eexists. split; [apply from_lines_ok_iff; split; [exact Hok'|reflexivity]|]. simpl.
  split.
  - apply sorted_str_perm_unique; try apply (sort_by_sorted str_cmp str_cmp_flip).
    rewrite !sort_by_perm. now apply Permutation_flat_map.
  - rewrite !sort_by_perm. now apply Permutation_flat_map.
Qed.

Definition x3_lines : list str :=
  map s2l ["drwxr-xr-x 2 u u 1 Jan 1 00:00 b/"; "-rw-r--r-- 1 u u 3 Jan 1 00:00 f";
           "drwxr-xr-x 2 u u 1 Jan 1 00:00 a/"]%string.

Lemma from_lines_reorder_witness :
  from_lines x3_lines = Ok (mkLsOutput [mkFile (s2l "f") 3] [s2l "a"; s2l "b"]) /\
  Permutation x3_lines (rev x3_lines) /\
  exists out', from_lines (rev x3_lines) = Ok out' /\ folders out' = [s2l "a"; s2l "b"] /\
               Permutation [mkFile (s2l "f") 3] (files out').
Proof.
  assert (H : from_lines x3_lines = Ok (mkLsOutput [mkFile (s2l "f") 3] [s2l "a"; s2l "b"]))
    by (vm_compute; reflexivity).
  assert (P : Permutation x3_lines (rev x3_lines)) by apply Permutation_rev.
  split; [exact H|]. split; [exact P|].
  exact (from_lines_reorder _ _ _ H P).
Defined.

(** ** Entries of a successful listing *)

Definition valid_entry (e : ParsedLine) : Prop :=
  match e with
  | File f => name f <> [] /\ (i64_min <= size_bytes f <= i64_max)%Z
  | Folder d => d <> []
  end.

Lemma parse_line_valid_entry (l : str) (e : ParsedLine) :
  parse_line l = Ok (Some e) -> valid_entry e.
Proof.
  intros H. apply parse_line_some in H.
  destruct H as (m & c1 & c2 & c3 & sz & c5 & c6 & c7 & parts & size & n &
                 _ & _ & _ & _ & Hsz & _ & _ & _ & [(_ & Hn & Hne & ->)|(_ & Hn & ->)]);
    simpl; auto.
  split; [exact (parse_name_ok_nonempty _ _ Hn)|exact (parse_i64_range _ _ Hsz)].
Qed.

(** X4: in a successful listing every file and folder name is non-empty and
    every file size lies in the signed 64-bit range. *)
Theorem from_str_entries_valid (s : str) (out : LsOutput) :
  from_str s = Ok out ->
  (forall f, In f (files out) -> name f <> [] /\ (i64_min <= size_bytes f <= i64_max)%Z) /\
  (forall d, In d (folders out) -> d <> []).
Proof.
  intros H. apply from_str_ok_iff_lemma in H as [Hok ->]. simpl.
  unfold from_str, from_lines in *.
  pose proof (parse_lines_all_ok _ [] [] Hok) as E. simpl in E.
  destruct (parse_lines_preserves valid_entry _ [] [] _ _ parse_line_valid_entry
              (fun f H => match H with end) (fun d H => match H with end) E) as [Hf Hd].
  split.
  - intros f Hin. apply (Permutation_in _ (sort_by_perm file_cmp _)) in Hin. exact (Hf f Hin).
  - intros d Hin. apply (Permutation_in _ (sort_by_perm str_cmp _)) in Hin. exact (Hd d Hin).
Qed.

Lemma from_str_entries_valid_witness :
  from_str c1_input =
    Ok (mkLsOutput [mkFile (s2l "a") 9; mkFile (s2l "b") 7] [s2l "alpha"; s2l "zeta"]) /\
  s2l "alpha" <> [].
Proof.
  assert (H : from_str c1_input =
    Ok (mkLsOutput [mkFile (s2l "a") 9; mkFile (s2l "b") 7] [s2l "alpha"; s2l "zeta"]))
    by (vm_compute; reflexivity).
  split; [exact H|]. apply (proj2 (from_str_entries_valid _ _ H)). simpl. auto.
Defined.

(** ** Missing columns *)

(** The error of each [parts.next().ok_or(..)] in column order, then the
    empty name. *)
Definition missing_column_kinds : list ErrorKind :=
  [MissingFileMode; MissingLinkCount; MissingOwner; MissingGroup; MissingSize;
   MissingMonth; MissingDay; MissingTimestamp; MissingName].

(** X5: a line that is not blank, not a ["total "] header, not a
    link/device line, whose size column (if present) parses, and that has
    [k <= 8] tokens fails with the error of its first absent column: mode,
    link count, owner, group, size, month, day, time, and with 8 tokens the
    missing name. *)
Theorem parse_line_first_missing_column (line_ : str) :
  is_empty line_ = false ->
  starts_with line_ total_prefix = false ->
  (List.length (split_whitespace line_) <= 8)%nat ->
  (forall m rest, split_whitespace line_ = m :: rest -> skip_mode m = false) ->
  (forall sz, nth_error (split_whitespace line_) 4 = Some sz -> parse_i64 sz <> None) ->
  parse_line line_ = Err (nth (List.length (split_whitespace line_)) missing_column_kinds MissingName).
Proof.
  intros He Ht Hlen Hm Hsz. unfold parse_line. rewrite He, Ht.
  destruct (split_whitespace line_) as [|m parts] eqn:Es; [reflexivity|].
  pose proof (Hm m parts eq_refl) as Hm0. simpl. rewrite Hm0. simpl in Hsz, Hlen |- *.
  destruct parts as [|c1 [|c2 [|c3 [|sz [|c5 [|c6 [|c7 [|c8 parts]]]]]]]];
    simpl in Hlen |- *; try reflexivity; try lia;
    destruct (parse_i64 sz) eqn:Ez; simpl; try reflexivity;
    exfalso; exact (Hsz sz eq_refl Ez).
Qed.

Definition x5_line : str := s2l "-rw-r--r-- 1 root root 16 Jan 1".

Lemma parse_line_first_missing_column_witness :
  split_whitespace x5_line = map s2l ["-rw-r--r--"; "1"; "root"; "root"; "16"; "Jan"; "1"]%string /\
  parse_line x5_line = Err MissingTimestamp.
Proof.
  split; [vm_compute; reflexivity|].
  apply (parse_line_first_missing_column x5_line).
  - reflexivity.
  - vm_compute. reflexivity.
  - vm_compute. lia.
  - intros m rest H. vm_compute in H. injection H as <- _. vm_compute. reflexivity.
  - intros sz H. vm_compute in H. injection H as <-. vm_compute. discriminate.
Defined.

(** ** The size column: [i64::from_str] *)

Definition is_ascii_digit (c : char) : bool := ((48 <=? c) && (c <=? 57))%N.

Definition pos_step (acc : Z) (c : char) : Z := (acc * 10 + (Z.of_N c - 48))%Z.
Definition neg_step (acc : Z) (c : char) : Z := (acc * 10 - (Z.of_N c - 48))%Z.

(** The decimal value of a digit string, without any bound. *)
Definition decimal_value (ds : str) : Z := fold_left pos_step ds 0%Z.

Lemma to_digit_is_ascii_digit (c : char) :
  to_digit c = if is_ascii_digit c then Some (Z.of_N c - 48)%Z else None.
Proof. reflexivity. Qed.

Lemma is_ascii_digit_bounds (c : char) :
  is_ascii_digit c = true -> (0 <= Z.of_N c - 48 <= 9)%Z.
Proof.
  unfold is_ascii_digit. intros H. apply andb_true_iff in H as [H1 H2].
  apply N.leb_le in H1. apply N.leb_le in H2. lia.
Qed.

Lemma fold_pos_step_mono (ds : str) (acc : Z) :
  (0 <= acc)%Z -> forallb is_ascii_digit ds = true -> (acc <= fold_left pos_step ds acc)%Z.
Proof.
  revert acc; induction ds as [|c ds IH]; intros acc Ha Hd; cbn [forallb fold_left] in *; [lia|].
  apply andb_true_iff in Hd as [Hc Hd]. apply is_ascii_digit_bounds in Hc.
  assert (acc <= pos_step acc c)%Z by (unfold pos_step; lia).
  specialize (IH (pos_step acc c) ltac:(lia) Hd). lia.
Qed.

Lemma fold_neg_step_mono (ds : str) (acc : Z) :
  (acc <= 0)%Z -> forallb is_ascii_digit ds = true -> (fold_left neg_step ds acc <= acc)%Z.
Proof.
  revert acc; induction ds as [|c ds IH]; intros acc Ha Hd; cbn [forallb fold_left] in *; [lia|].
  apply andb_true_iff in Hd as [Hc Hd]. apply is_ascii_digit_bounds in Hc.
  assert (neg_step acc c <= acc)%Z by (unfold neg_step; lia).
  specialize (IH (neg_step acc c) ltac:(lia) Hd). lia.
Qed.

Lemma fold_neg_step_opp (ds : str) (a : Z) :
  fold_left neg_step ds (- a)%Z = (- fold_left pos_step ds a)%Z.
Proof.
  revert a; induction ds as [|c ds IH]; intros a; simpl; [reflexivity|].
  replace (neg_step (- a) c) with (- pos_step a c)%Z by (unfold neg_step, pos_step; lia).
  apply IH.
Qed.

Lemma accumulate_pos_iff (acc z : Z) (ds : str) :
  (0 <= acc <= i64_max)%Z ->
  accumulate_pos acc ds = Some z <->
  forallb is_ascii_digit ds = true /\ z = fold_left pos_step ds acc /\ (z <= i64_max)%Z.
Proof.
  revert acc; induction ds as [|c ds IH]; intros acc Ha; simpl.
  - split; [intros H; injection H as <-; repeat split; lia|].
    intros [_ [-> _]]. reflexivity.
  - rewrite to_digit_is_ascii_digit.
    destruct (is_ascii_digit c) eqn:Hc; simpl; [|split; [discriminate|intros [F _]; discriminate]].
    pose proof (is_ascii_digit_bounds c Hc) as Hb.
    destruct (i64_max <? acc * 10 + (Z.of_N c - 48))%Z eqn:Hm.
    + apply Z.ltb_lt in Hm. split; [discriminate|].
      intros [Hd [-> Hz]].
      pose proof (fold_pos_step_mono ds (pos_step acc c) ltac:(unfold pos_step; lia) Hd) as M.
      unfold pos_step in *. lia.
    + apply Z.ltb_ge in Hm. rewrite (IH (acc * 10 + (Z.of_N c - 48))%Z ltac:(lia)). reflexivity.
Qed.

Lemma accumulate_neg_iff (acc z : Z) (ds : str) :
  (i64_min <= acc <= 0)%Z ->
  accumulate_neg acc ds = Some z <->
  forallb is_ascii_digit ds = true /\ z = fold_left neg_step ds acc /\ (i64_min <= z)%Z.
Proof.
  revert acc; induction ds as [|c ds IH]; intros acc Ha; simpl.
  - split; [intros H; injection H as <-; repeat split; lia|].
    intros [_ [-> _]]. reflexivity.
  - rewrite to_digit_is_ascii_digit.
    destruct (is_ascii_digit c) eqn:Hc; simpl; [|split; [discriminate|intros [F _]; discriminate]].
    pose proof (is_ascii_digit_bounds c Hc) as Hb.
    destruct (acc * 10 - (Z.of_N c - 48) <? i64_min)%Z eqn:Hm.
    + apply Z.ltb_lt in Hm. split; [discriminate|].
      intros [Hd [-> Hz]].
      pose proof (fold_neg_step_mono ds (neg_step acc c) ltac:(unfold neg_step; lia) Hd) as M.
      unfold neg_step in *. lia.
    + apply Z.ltb_ge in Hm. rewrite (IH (acc * 10 - (Z.of_N c - 48))%Z ltac:(lia)). reflexivity.
Qed.

Lemma parse_i64_eq (src : str) :
  parse_i64 src =
  match src with
  | [] => None
  | c :: ds =>
      if (c =? 43)%N then match ds with [] => None | _ => accumulate_pos 0 ds end
      else if (c =? 45)%N then match ds with [] => None | _ => accumulate_neg 0 ds end
      else accumulate_pos 0 src
  end.
Proof.
  destruct src as [|c ds]; [reflexivity|].
  destruct ds; destruct c as [|p]; try reflexivity;
    repeat (destruct p as [p|p|]; try reflexivity).
Qed.

(** X6: the size parser accepts exactly an optional [+] or [-] followed by a
    non-empty run of ASCII digits whose signed decimal value fits in 64 bits,
    and returns that value; anything else (empty, a lone sign, another
    character, an out-of-range value) is rejected, never wrapped. *)
Theorem parse_i64_iff (src : str) (z : Z) :
  parse_i64 src = Some z <->
  exists ds, ds <> [] /\ forallb is_ascii_digit ds = true /\
    ((src = ds /\ z = decimal_value ds) \/
     (src = 43%N :: ds /\ z = decimal_value ds) \/
     (src = 45%N :: ds /\ z = (- decimal_value ds)%Z)) /\
    (i64_min <= z <= i64_max)%Z.
Proof.
  assert (Hb : (i64_min <= 0 <= i64_max)%Z) by (unfold i64_min, i64_max; lia).
  assert (P : forall ds, ds <> [] ->
            accumulate_pos 0 ds = Some z <->
            forallb is_ascii_digit ds = true /\ z = decimal_value ds /\ (i64_min <= z <= i64_max)%Z).
  { intros ds _. rewrite (accumulate_pos_iff 0 z ds ltac:(lia)). unfold decimal_value.
    split; intros [Hd [-> Hz]]; repeat split; try lia; auto.
    pose proof (fold_pos_step_mono ds 0 ltac:(lia) Hd). lia. }
  assert (Nn : forall ds, ds <> [] ->
            accumulate_neg 0 ds = Some z <->
            forallb is_ascii_digit ds = true /\ z = (- decimal_value ds)%Z /\ (i64_min <= z <= i64_max)%Z).
  { intros ds _. rewrite (accumulate_neg_iff 0 z ds ltac:(lia)). unfold decimal_value.
    rewrite <- (fold_neg_step_opp ds 0). simpl.
    split; intros [Hd [-> Hz]]; repeat split; try lia; auto.
    pose proof (fold_neg_step_mono ds 0 ltac:(lia) Hd). lia. }
  rewrite parse_i64_eq. destruct src as [|c ds].
  { split; [discriminate|]. intros (ds & Hne & _ & [[E _]|[[E _]|[E _]]] & _);
      [subst ds; exfalso; exact (Hne eq_refl)|discriminate|discriminate]. }
  destruct (c =? 43)%N eqn:E43; [apply N.eqb_eq in E43; subst c|].
  { destruct ds as [|d ds'].
    - split; [discriminate|].
      intros (ds & Hne & Hd & [[E _]|[[E _]|[E _]]] & _); exfalso.
      + subst ds. discriminate.
      + injection E as E. subst ds. exact (Hne eq_refl).
      + discriminate.
    - rewrite (P (d :: ds') ltac:(discriminate)). split.
      + intros (Hd & Hz & Hr). exists (d :: ds'). split; [discriminate|]. split; [exact Hd|]. split; [|exact Hr].
        right; left; split; auto.
      + intros (ds & Hne & Hd & [[E _]|[[E Hz]|[E _]]] & Hr).
        * subst ds. discriminate.
        * injection E as <-. auto.
        * discriminate. }
  destruct (c =? 45)%N eqn:E45; [apply N.eqb_eq in E45; subst c|].
  { destruct ds as [|d ds'].
    - split; [discriminate|].
      intros (ds & Hne & Hd & [[E _]|[[E _]|[E _]]] & _); exfalso.
      + subst ds. discriminate.
      + discriminate.
      + injection E as E. subst ds. exact (Hne eq_refl).
    - rewrite (Nn (d :: ds') ltac:(discriminate)). split.
      + intros (Hd & Hz & Hr). exists (d :: ds'). split; [discriminate|]. split; [exact Hd|]. split; [|exact Hr].
        right; right; split; auto.
      + intros (ds & Hne & Hd & [[E _]|[[E _]|[E Hz]]] & Hr).
        * subst ds. discriminate.
        * discriminate.
        * injection E as <-. auto. }
  rewrite (P (c :: ds) ltac:(discriminate)). split.
  - intros (Hd & Hz & Hr). exists (c :: ds). split; [discriminate|]. split; [exact Hd|]. split; [|exact Hr].
    left; split; auto.
  - intros (ds' & Hne & Hd & [[E Hz]|[[E _]|[E _]]] & Hr).
    + subst ds'. auto.
    + injection E as -> _. discriminate.
    + injection E as -> _. discriminate.
Qed.

(** ** [Display] for [ErrorKind] and [Error] *)

Definition kind_to_string (k : ErrorKind) : str :=
  match k with
  | MissingFileMode => s2l "missing file mode field"
  | MissingLinkCount => s2l "missing link count field"
  | MissingOwner => s2l "missing owner field"
  | MissingGroup => s2l "missing group field"
  | MissingSize => s2l "missing size field"
  | InvalidSize token => s2l "invalid size value `" ++ token ++ s2l "`"
  | MissingMonth => s2l "missing timestamp month field"
  | MissingDay => s2l "missing timestamp day field"
  | MissingTimestamp => s2l "missing timestamp time or year field"
  | MissingName => s2l "missing file name"
  | EmptyQuotedName => s2l "empty quoted file name"
  | InvalidEscapeSequence => s2l "unterminated escape sequence in file name"
  end.

(** [write!(f, "{} in line `{}`", self.kind, self.line)] *)
Definition error_to_string (e : Error) : str :=
  kind_to_string (kind e) ++ s2l " in line `" ++ line e ++ s2l "`".

(** X7: the rendered message of an error kind determines the kind, and for
    [InvalidSize] the offending token: no two kinds print alike. *)
Theorem kind_to_string_injective (k1 k2 : ErrorKind) :
  kind_to_string k1 = kind_to_string k2 -> k1 = k2.
Proof.
  destruct k1, k2; intros H; try reflexivity;
    first [ apply app_inv_head in H; apply app_inv_tail in H; now subst
          | vm_compute in H; congruence ].
Qed.

Lemma kind_to_string_injective_witness :
  kind_to_string (InvalidSize (s2l "x1")) = s2l "invalid size value `x1`" /\
  InvalidSize (s2l "x1") = InvalidSize (s2l "x1").
Proof.
  split; [vm_compute; reflexivity|].
  apply kind_to_string_injective. reflexivity.
Defined.

Lemma parse_lines_err (ls : list str) (fs : list LsOutputFile) (ds : list str) (e : Error) :
  parse_lines ls fs ds = Err e ->
  exists pre l post, ls = pre ++ l :: post /\
    Forall (fun l' => exists r, parse_line (trim l') = Ok r) pre /\
    parse_line (trim l) = Err (kind e) /\ line e = trim l.
Proof.
  revert fs ds; induction ls as [|l ls IH]; intros fs ds H; simpl in H; [discriminate|].
  destruct (parse_line (trim l)) as [[[f|d]|]|k] eqn:Ep.
  1-3: destruct (IH _ _ H) as (pre & l' & post & -> & Hpre & Hl & Hline);
       exists (l :: pre), l', post; repeat split; auto; constructor; eauto.
  injection H as <-. exists [], l, ls. repeat split; auto.
Qed.

(** X8: every failure of [from_str] comes from one input line: all lines
    before it parse, the line itself (trimmed) fails with the error's kind,
    the error carries that trimmed line, and the error prints as the kind's
    message followed by [ in line `<trimmed line>`]. *)
Theorem from_str_error_origin (s : str) (e : Error) :
  from_str s = Err e ->
  exists pre l post, lines (strip_continuation s) = pre ++ l :: post /\
    Forall (fun l' => exists r, parse_line (trim l') = Ok r) pre /\
    parse_line (trim l) = Err (kind e) /\ line e = trim l /\
    error_to_string e = kind_to_string (kind e) ++ s2l " in line `" ++ trim l ++ s2l "`".
Proof.
  unfold from_str, from_lines. intros H.
  destruct (parse_lines (lines (strip_continuation s)) [] []) as [[fs ds]|e'] eqn:Ep;
    simpl in H; [discriminate|]. injection H as ->.
  destruct (parse_lines_err _ _ _ _ Ep) as (pre & l & post & Hs & Hpre & Hl & Hline).
  exists pre, l, post. repeat split; auto.
  unfold error_to_string. now rewrite Hline.
Qed.

Definition x8_input : str :=
  s2l ("total 0" ++ nl ++ "-rw-r--r-- 1 u u 2 Jan 1 00:00 a" ++ nl ++
       "  -rw-r--r-- 1 u u 2x Jan 1 00:00 b  " ++ nl ++ "junk").

Lemma from_str_error_origin_witness :
  from_str x8_input =
    Err (mkError (InvalidSize (s2l "2x")) (s2l "-rw-r--r-- 1 u u 2x Jan 1 00:00 b")) /\
  error_to_string (mkError (InvalidSize (s2l "2x")) (s2l "-rw-r--r-- 1 u u 2x Jan 1 00:00 b")) =
    s2l "invalid size value `2x` in line `-rw-r--r-- 1 u u 2x Jan 1 00:00 b`" /\
  exists pre l post, lines (strip_continuation x8_input) = pre ++ l :: post /\
    Forall (fun l' => exists r, parse_line (trim l') = Ok r) pre /\
    parse_line (trim l) = Err (InvalidSize (s2l "2x")) /\
    s2l "-rw-r--r-- 1 u u 2x Jan 1 00:00 b" = trim l /\
    error_to_string (mkError (InvalidSize (s2l "2x")) (s2l "-rw-r--r-- 1 u u 2x Jan 1 00:00 b")) =
      kind_to_string (InvalidSize (s2l "2x")) ++ s2l " in line `" ++ trim l ++ s2l "`".
Proof.
  assert (E : from_str x8_input =
    Err (mkError (InvalidSize (s2l "2x")) (s2l "-rw-r--r-- 1 u u 2x Jan 1 00:00 b")))
    by (vm_compute; reflexivity).
  split; [exact E|]. split; [vm_compute; reflexivity|].
  exact (from_str_error_origin _ _ E).
Defined.

(** ** Line endings *)

Definition crlf_text (ls : list str) : str := List.concat (map (fun l => l ++ [13%N; 10%N]) ls).
Definition lf_text (ls : list str) : str := List.concat (map (fun l => l ++ [10%N]) ls).

Definition no_line_break (l : str) : Prop := ~ In 10%N l /\ ~ In 13%N l.

Lemma lines_aux_app (l rest cur : str) :
  ~ In 10%N l -> lines_aux (l ++ rest) cur = lines_aux rest (rev l ++ cur).
Proof.
  revert cur; induction l as [|c l IH]; intros cur Hl; simpl; [reflexivity|].
  destruct (c =? 10)%N eqn:Ec; [apply N.eqb_eq in Ec; subst; exfalso; apply Hl; left; reflexivity|].
  rewrite IH by (intros H; apply Hl; right; exact H).
  now rewrite <- app_assoc.
Qed.

Lemma strip_cr_no_cr (l : str) : ~ In 13%N l -> strip_cr l = l.
Proof.
  intros Hl. unfold strip_cr. destruct (rev l) as [|c r] eqn:Er; [reflexivity|].
  destruct (N.eq_dec c 13) as [->|Hc].
  - exfalso. apply Hl. apply in_rev. rewrite Er. left. reflexivity.
  - destruct c as [|p]; [reflexivity|].
    repeat (destruct p as [p|p|]; try reflexivity). exfalso; apply Hc; reflexivity.
Qed.

Lemma lines_crlf_text (ls : list str) :
  Forall no_line_break ls -> lines (crlf_text ls) = ls.
Proof.
  unfold lines, crlf_text. induction 1 as [|l ls [H10 H13] _ IH]; [reflexivity|].
  simpl. rewrite <- app_assoc, lines_aux_app by exact H10. simpl.
  rewrite IH. f_equal. unfold strip_cr.
  rewrite app_nil_r, rev_app_distr. simpl. now rewrite !rev_involutive.
Qed.

Lemma lines_lf_text (ls : list str) :
  Forall no_line_break ls -> lines (lf_text ls) = ls.
Proof.
  unfold lines, lf_text. induction 1 as [|l ls [H10 H13] _ IH]; [reflexivity|].
  simpl. rewrite <- app_assoc, lines_aux_app by exact H10. simpl.
  rewrite IH, app_nil_r, rev_involutive, strip_cr_no_cr by exact H13. reflexivity.
Qed.

(** Both texts lose the same continuation marker: the whole first line when
    it is a lone backslash, nothing otherwise. *)
Lemma strip_continuation_texts (ls : list str) :
  Forall no_line_break ls ->
  exists ls', Forall no_line_break ls' /\
    strip_continuation (crlf_text ls) = crlf_text ls' /\
    strip_continuation (lf_text ls) = lf_text ls'.
Proof.
  intros Hls. destruct Hls as [|l ls [H10 H13] Hls].
  - exists []. repeat split; constructor.
  - destruct (list_eq_dec N.eq_dec l [backslash]) as [->|Hne].
    + exists ls. repeat split; auto.
    + exists (l :: ls). repeat split; [constructor; [split|]; auto| |];
        unfold strip_continuation, crlf_text, lf_text; cbn [List.concat map];
        (destruct l as [|c l]; [reflexivity|]); cbn [app strip_prefix];
        (destruct (backslash =? c)%N eqn:Ec; [|reflexivity]); apply N.eqb_eq in Ec; subst c;
        (destruct l as [|d l]; [exfalso; exact (Hne eq_refl)|]); cbn [app strip_prefix];
        (destruct (13 =? d)%N eqn:Ed;
          [apply N.eqb_eq in Ed; subst; exfalso; apply H13; right; left; reflexivity|]);
        (destruct (10 =? d)%N eqn:Ed';
          [apply N.eqb_eq in Ed'; subst; exfalso; apply H10; right; left; reflexivity|]);
        reflexivity.
Qed.

(** X9: a listing whose lines end in ["\r\n"] parses exactly like the same
    listing with ["\n"] endings (same output or same error). *)
Theorem from_str_crlf_as_lf (ls : list str) :
  Forall no_line_break ls -> from_str (crlf_text ls) = from_str (lf_text ls).
Proof.
  intros Hls. destruct (strip_continuation_texts ls Hls) as (ls' & Hls' & Ec & El).
  unfold from_str. rewrite Ec, El, lines_crlf_text, lines_lf_text by exact Hls'.
  reflexivity.
Qed.

Definition x9_lines : list str :=
  [[backslash]; s2l "total 8"; s2l "drwxr-xr-x 2 u u 4096 Jan 1 00:00 d/";
   s2l "-rw-r--r-- 1 u u 3 Jan 1 00:00 f"].

Lemma from_str_crlf_as_lf_witness :
  Forall no_line_break x9_lines /\
  from_str (crlf_text x9_lines) = from_str (lf_text x9_lines) /\
  from_str (lf_text x9_lines) = Ok (mkLsOutput [mkFile (s2l "f") 3] [s2l "d"]).
Proof.
  assert (H : Forall no_line_break x9_lines).
  { unfold x9_lines, no_line_break.
    repeat (apply Forall_cons;
      [split; simpl; intros Hin; repeat (destruct Hin as [Hin|Hin]; [discriminate|]); exact Hin|]).
    apply Forall_nil. }
  split; [exact H|]. split; [exact (from_str_crlf_as_lf _ H)|]. vm_compute. reflexivity.
Defined.

(** ** Double-quoted names: escaping and decoding *)

(** The C-style escaping of a name: newline, carriage return, tab and
    backslash are written as two-character escapes, any other character as
    itself. *)
Definition c_escape_char (c : char) : str :=
  if (c =? 10)%N then [backslash; 110%N]
  else if (c =? 13)%N then [backslash; 114%N]
  else if (c =? 9)%N then [backslash; 116%N]
  else if (c =? backslash)%N then [backslash; backslash]
  else [c].

Definition c_escape (n : str) : str := flat_map c_escape_char n.

Lemma unescape_loop_c_escape (n acc : str) :
  unescape_loop (flat_map c_escape_char n) acc = Ok (acc ++ n).
Proof.
  revert acc; induction n as [|c n IH]; intros acc; simpl; [now rewrite app_nil_r|].
  unfold c_escape_char.
  destruct (c =? 10)%N eqn:E10;
    [apply N.eqb_eq in E10; subst; simpl; now rewrite IH, <- app_assoc|].
  destruct (c =? 13)%N eqn:E13;
    [apply N.eqb_eq in E13; subst; simpl; now rewrite IH, <- app_assoc|].
  destruct (c =? 9)%N eqn:E9;
    [apply N.eqb_eq in E9; subst; simpl; now rewrite IH, <- app_assoc|].
  destruct (c =? backslash)%N eqn:Eb;
    [apply N.eqb_eq in Eb; subst; simpl; now rewrite IH, <- app_assoc|].
  cbn [app unescape_loop]. rewrite Eb, IH, <- app_assoc. reflexivity.
Qed.

(** X10: decoding inverts escaping: every non-empty name, escaped and
    wrapped in double quotes, decodes back to itself (quotes and spaces
    inside need no escape). *)
Theorem parse_name_c_escape_roundtrip (n : str) :
  n <> [] -> parse_name (dquote :: c_escape n ++ [dquote]) = Ok n.
Proof.
  intros Hn. rewrite parse_name_wrapped, N.eqb_refl. simpl.
  unfold unescape_double_quoted, c_escape. rewrite unescape_loop_c_escape. simpl.
  destruct n; [contradiction|reflexivity].
Qed.

Definition x10_name : str :=
  s2l "a " ++ [dquote] ++ s2l "b" ++ [dquote] ++ s2l " c\d" ++ [10%N; 9%N; 13%N] ++ s2l "'".

Lemma parse_name_c_escape_roundtrip_witness :
  x10_name <> [] /\ parse_name (dquote :: c_escape x10_name ++ [dquote]) = Ok x10_name.
Proof.
  split; [discriminate|]. apply parse_name_c_escape_roundtrip. discriminate.
Defined.

(** ** Whitespace in decoded names *)

(** The only whitespace characters a name can hold: tab, newline and
    carriage return (from escapes) and the space that rejoins the tokens. *)
Definition name_whitespace_ok (n : str) : Prop :=
  forall c, In c n -> is_whitespace c = true -> c = 9%N \/ c = 10%N \/ c = 13%N \/ c = 32%N.

Lemma split_ws_aux_no_ws (s cur : str) :
  (forall c, In c cur -> is_whitespace c = false) ->
  forall w, In w (split_ws_aux s cur) -> forall c, In c w -> is_whitespace c = false.
Proof.
  revert cur; induction s as [|x s IH]; intros cur Hcur w Hw; simpl in Hw.
  - destruct Hw as [<-|[]]. intros c Hc. apply Hcur. now apply in_rev.
  - destruct (is_whitespace x) eqn:Ex.
    + destruct Hw as [<-|Hw].
      * intros c Hc. apply Hcur. now apply in_rev.
      * apply (IH [] (fun c H => match H with end) w Hw).
    + apply (IH (x :: cur)); [|exact Hw].
      intros c [<-|Hc]; [exact Ex|exact (Hcur c Hc)].
Qed.

Lemma split_whitespace_no_ws (s w : str) :
  In w (split_whitespace s) -> forall c, In c w -> is_whitespace c = false.
Proof.
  unfold split_whitespace. intros Hw. apply filter_In in Hw as [Hw _].
  exact (split_ws_aux_no_ws s [] (fun c H => match H with end) w Hw).
Qed.

Lemma in_join (sep : str) (parts : list str) (c : char) :
  In c (join sep parts) -> In c sep \/ exists w, In w parts /\ In c w.
Proof.
  induction parts as [|w ws IH]; simpl; [intros []|].
  destruct ws as [|w' ws'].
  - intros H. right. exists w. auto.
  - intros H. apply in_app_or in H as [H|H]; [right; exists w; auto|].
    apply in_app_or in H as [H|H]; [left; exact H|].
    destruct (IH H) as [Hs|(v & Hv & Hc)]; [left; exact Hs|right; exists v; auto].
Qed.

Lemma in_pop_while_ends_with (s : str) (d c : char) :
  In c (pop_while_ends_with s d) -> In c s.
Proof.
  unfold pop_while_ends_with. intros H. apply in_rev in H. apply in_rev.
  induction (rev s) as [|x r IH]; simpl in *; [exact H|].
  destruct (x =? d)%N; [right; exact (IH H)|exact H].
Qed.

Lemma in_removelast (s : str) (c : char) : In c (removelast s) -> In c s.
Proof.
  induction s as [|x s IH]; simpl; [intros []|].
  destruct s as [|y s]; [intros []|]. intros [<-|H]; [left; reflexivity|right; exact (IH H)].
Qed.

Lemma spec_unescapes_chars (mid v : str) (c : char) :
  SpecUnescapes mid v -> In c v -> In c mid \/ c = 9%N \/ c = 10%N \/ c = 13%N.
Proof.
  induction 1 as [|x s r Hx H IH|x s r H IH]; simpl; [intros []|..].
  - intros [<-|Hc]; [left; left; reflexivity|].
    destruct (IH Hc) as [Hm|Hm]; [left; right; exact Hm|right; exact Hm].
  - intros [<-|Hc].
    + unfold spec_escape.
      destruct (x =? 110)%N; [right; right; left; reflexivity|].
      destruct (x =? 114)%N; [right; right; right; reflexivity|].
      destruct (x =? 116)%N; [right; left; reflexivity|].
      left; right; left; reflexivity.
    + destruct (IH Hc) as [Hm|Hm]; [left; right; right; exact Hm|right; exact Hm].
Qed.

Lemma parse_name_chars (raw n : str) (c : char) :
  parse_name raw = Ok n -> In c n -> In c raw \/ c = 9%N \/ c = 10%N \/ c = 13%N.
Proof.
  intros H Hc. pose proof (parse_name_complete raw) as D. rewrite H in D.
  inversion D as [|mid v Hv Hne E1 E2| | |mid Hne E1 E2| |t Hne Hdq Hsq E1 E2]; subst.
  - destruct (spec_unescapes_chars mid n c Hv Hc) as [Hm|Hm]; [|right; exact Hm].
    left. right. apply in_or_app. left. exact Hm.
  - left. right. apply in_or_app. left. exact Hc.
  - left. exact Hc.
Qed.

Lemma parse_line_name_whitespace (l : str) (e : ParsedLine) :
  parse_line l = Ok (Some e) ->
  match e with File f => name_whitespace_ok (name f) | Folder d => name_whitespace_ok d end.
Proof.
  intros H. apply parse_line_some in H.
  destruct H as (m & c1 & c2 & c3 & sz & c5 & c6 & c7 & parts & size & n &
                 _ & _ & Hs & _ & _ & _ & _ & _ & Hcase).
  assert (Hraw : forall c, In c (join [space] parts) -> is_whitespace c = true -> c = 32%N).
  { intros c Hc Hw. apply in_join in Hc as [[<-|[]]|(w & Hw' & Hc)]; [reflexivity|].
    assert (Hin : In w (split_whitespace l)) by (rewrite Hs; do 8 right; exact Hw').
    rewrite (split_whitespace_no_ws l w Hin c Hc) in Hw. discriminate. }
  assert (Hname : forall raw, (forall c, In c raw -> In c (join [space] parts)) ->
            parse_name raw = Ok n -> name_whitespace_ok n).
  { intros raw Hsub Hn c Hc Hw.
    destruct (parse_name_chars raw n c Hn Hc) as [Hr|Hr]; [|tauto].
    right; right; right. exact (Hraw c (Hsub c Hr) Hw). }
  destruct Hcase as [(_ & Hn & _ & ->)|(_ & Hn & ->)].
  - exact (Hname _ (in_pop_while_ends_with _ slash) Hn).
  - exact (Hname _ (fun c H => H) Hn).
Qed.

(** X11: a successful listing never holds a file or folder name containing
    a whitespace character other than tab, newline, carriage return or
    space: other whitespace (vertical tab, form feed, no-break space, ...)
    splits the name into tokens that are rejoined with a space. *)
Theorem from_str_name_whitespace (s : str) (out : LsOutput) :
  from_str s = Ok out ->
  (forall f, In f (files out) -> name_whitespace_ok (name f)) /\
  (forall d, In d (folders out) -> name_whitespace_ok d).
Proof.
  intros H. apply from_str_ok_iff_lemma in H as [Hok ->]. simpl.
  pose proof (parse_lines_all_ok _ [] [] Hok) as E. simpl in E.
  destruct (parse_lines_preserves
              (fun e => match e with File f => name_whitespace_ok (name f)
                                | Folder d => name_whitespace_ok d end)
              _ [] [] _ _ parse_line_name_whitespace
              (fun f H => match H with end) (fun d H => match H with end) E) as [Hf Hd].
  split.
  - intros f Hin. apply (Permutation_in _ (sort_by_perm file_cmp _)) in Hin. exact (Hf f Hin).
  - intros d Hin. apply (Permutation_in _ (sort_by_perm str_cmp _)) in Hin. exact (Hd d Hin).
Qed.

Definition x11_input : str :=
  s2l "-rw-r--r-- 1 u u 1 Jan 1 00:00 a" ++ [11%N; 160%N] ++ s2l "b" ++ [10%N] ++
  s2l "-rw-r--r-- 1 u u 1 Jan 1 00:00 " ++ [dquote] ++ s2l "c\td" ++ [dquote].

Lemma from_str_name_whitespace_witness :
  from_str x11_input = Ok (mkLsOutput [mkFile (s2l "a b") 1; mkFile ([99; 9; 100]%N) 1] []) /\
  name_whitespace_ok (s2l "a b").
Proof.
  assert (H : from_str x11_input =
    Ok (mkLsOutput [mkFile (s2l "a b") 1; mkFile ([99; 9; 100]%N) 1] [])) by (vm_compute; reflexivity).
  split; [exact H|].
  destruct (from_str_name_whitespace _ _ H) as [Hf _].
  exact (Hf (mkFile (s2l "a b") 1) (or_introl eq_refl)).
Defined.

(** ** Skipped lines and padding *)

Lemma parse_lines_drop_skipped (pre post : list str) (l : str) fs ds :
  parse_line (trim l) = Ok None ->
  parse_lines (pre ++ l :: post) fs ds = parse_lines (pre ++ post) fs ds.
Proof.
  intros Hl. revert fs ds; induction pre as [|x pre IH]; intros fs ds; simpl.
  - now rewrite Hl.
  - destruct (parse_line (trim x)) as [[[f|d]|]|k]; auto.
Qed.

(** X12: a line the parser skips (blank, a [total] header, a link or device
    entry, [.] or [..]) can be removed, wherever it stands, without changing
    the result, success or error. *)
Theorem from_lines_drop_skipped_line (pre post : list str) (l : str) :
  parse_line (trim l) = Ok None ->
  from_lines (pre ++ l :: post) = from_lines (pre ++ post).
Proof.
  intros Hl. unfold from_lines. now rewrite parse_lines_drop_skipped.
Qed.

Definition x12_pre : list str := [s2l "-rw-r--r-- 1 u u 1 Jan 1 00:00 b"].
Definition x12_skipped : str := s2l "  lrwxrwxrwx 1 u u 4 Jan 1 00:00 l -> b ".
Definition x12_post : list str := [s2l "broken"].

Lemma from_lines_drop_skipped_line_witness :
  parse_line (trim x12_skipped) = Ok None /\
  from_lines (x12_pre ++ x12_skipped :: x12_post) = from_lines (x12_pre ++ x12_post) /\
  from_lines (x12_pre ++ x12_post) = Err (mkError MissingLinkCount (s2l "broken")).
Proof.
  assert (H : parse_line (trim x12_skipped) = Ok None) by (vm_compute; reflexivity).
  split; [exact H|]. split; [exact (from_lines_drop_skipped_line _ _ _ H)|].
  vm_compute. reflexivity.
Defined.

Lemma drop_while_app (f : char -> bool) (l m : str) :
  drop_while f (l ++ m) = match drop_while f l with [] => drop_while f m | r => r ++ m end.
Proof.
  induction l as [|x l IH]; simpl; [reflexivity|].
  destruct (f x); [exact IH|reflexivity].
Qed.

Lemma drop_while_all (f : char -> bool) (a : str) :
  Forall (fun c => f c = true) a -> drop_while f a = [].
Proof. induction 1 as [|x a Hx _ IH]; simpl; [reflexivity|]. now rewrite Hx. Qed.

Lemma trim_pad (a l b : str) :
  Forall (fun c => is_whitespace c = true) a ->
  Forall (fun c => is_whitespace c = true) b ->
  trim (a ++ l ++ b) = trim l.
Proof.
  intros Ha Hb. unfold trim.
  rewrite (drop_while_app _ a), (drop_while_all _ a Ha), drop_while_app.
  destruct (drop_while is_whitespace l) as [|x r] eqn:El.
  - now rewrite (drop_while_all _ b Hb).
  - rewrite rev_app_distr, drop_while_app, (drop_while_all _ (rev b) (Forall_rev Hb)).
    reflexivity.
Qed.

(** X13: leading and trailing whitespace on any line never changes the
    result: padding each line with whitespace gives the same output or the
    same error, the error carrying the same trimmed line. *)
Theorem from_lines_padding (ls ls' : list str) :
  Forall2 (fun l l' => exists a b,
             Forall (fun c => is_whitespace c = true) a /\
             Forall (fun c => is_whitespace c = true) b /\ l' = a ++ l ++ b) ls ls' ->
  from_lines ls' = from_lines ls.
Proof.
  intros H. unfold from_lines. f_equal.
  generalize (@nil LsOutputFile) (@nil str).
  induction H as [|l l' ls ls' (a & b & Ha & Hb & ->) _ IH]; intros fs ds; simpl; [reflexivity|].
  rewrite trim_pad by assumption.
  destruct (parse_line (trim l)) as [[[f|d]|]|k]; auto.
Qed.

Definition x13_lines : list str :=
  [s2l "-rw-r--r-- 1 u u 1 Jan 1 00:00 b"; s2l "drwxr-xr-x 2 u u 4096 Jan 1 00:00 d/"].
Definition x13_padded : list str :=
  [[9%N; 32%N] ++ s2l "-rw-r--r-- 1 u u 1 Jan 1 00:00 b" ++ [13%N];
   s2l "drwxr-xr-x 2 u u 4096 Jan 1 00:00 d/" ++ [160%N; 32%N]].

Lemma from_lines_padding_witness :
  from_lines x13_padded = from_lines x13_lines /\
  from_lines x13_lines = Ok (mkLsOutput [mkFile (s2l "b") 1] [s2l "d"]).
Proof.
  split; [|vm_compute; reflexivity].
  apply from_lines_padding. unfold x13_lines, x13_padded.
  constructor; [|constructor; [|constructor]].
  - exists [9%N; 32%N], [13%N]. split; [repeat constructor|split; [repeat constructor|reflexivity]].
  - exists [], [160%N; 32%N]. split; [constructor|split; [repeat constructor|reflexivity]].
Defined.
